(** * Tire-curve synthesis (ssc-mod, research/): a shallow embedding

    The three scripts under [research/] build slip-angle -> lateral-force
    curves, overlay a deterministic "chatter" term, normalise the result
    and print it as a lookup table.  This development embeds the
    computational core of
      - [custom_tire_curve_generator.py]
          ([calculate_load_scaling], [create_realistic_tire_curve],
           [generate_lut_file]),
      - [tire_chatter_generator.py]
          ([create_chatter_tire_curve], [generate_chatter_lut_files]),
      - [tire_curve_plotter.py] ([ac_tire_model]),
    and proves properties of it.

    Number model.  A finite binary64 value is read as the real number it
    denotes and arithmetic on finite values is real arithmetic: the
    rounding of a result to 53 bits and underflow are not modelled, so
    an equality between a stored value and a formula is an equality up
    to rounding.  What the scripts can produce beyond finite values is
    kept: Python exceptions, the [OverflowError] of an overflowing [**]
    among them, are results of type [py_result], a complex power is a
    value of [py_value], and NumPy's non-finite results of a division
    by zero or of an overflowing [np.exp] are values of [np_float].
    Scalars are Python scalars and series are float64 arrays, as the
    drivers of the scripts pass them.
    Where rounding itself decides a statement (the brush model far
    above its limit angle), Part VII rounds every operation to
    binary64.
    The text formatter works on rationals, which contain every finite
    binary64 value, so it is exact and it computes. *)

From Stdlib Require Import Reals Lra Lia List Bool.
From Stdlib Require Import ZArith QArith Qround Qabs.
From Stdlib Require Import Ascii String.
From Stdlib Require Import DecimalString DecimalN.
Import ListNotations.

Local Open Scope R_scope.

(* ================================================================= *)
(** * Part I.  Python and NumPy scalars *)

(** ** Exceptions and the error monad *)

(** The exceptions the embedded code can raise. *)
Inductive py_error : Type :=
| ZeroDivisionError
| OverflowError
| UnboundLocalError
| ValueError
| IndexError
| TypeError.

Inductive py_result (A : Type) : Type :=
| Ok (a : A)
| Raise (e : py_error).

Arguments Ok {A} a.
Arguments Raise {A} e.

Definition bind {A B : Type} (m : py_result A) (k : A -> py_result B)
  : py_result B :=
  match m with
  | Ok a => k a
  | Raise e => Raise e
  end.

Notation "x <- m ;; k" := (bind m (fun x => k))
  (at level 61, m at next level, right associativity).
Notation "' p <- m ;; k" := (bind m (fun x => let 'p := x in k))
  (at level 61, p pattern, m at next level, right associativity).

(** ** Python floats *)

(** A Python number as [**] can return it: a float, or a complex number
    (real and imaginary part). *)
Inductive py_value : Type :=
| PyFloat (r : R)
| PyComplex (re im : R).

(** [np.radians]: degrees to radians. *)
Definition radians (deg : R) : R := deg * (PI / 180).

(** [a / b] on Python scalars (int or float): true division, which
    raises on a zero divisor.  (On a NumPy float64 scalar the same
    operator warns and returns an infinity or NaN; the one call of the
    scripts that passes float64 loads, for a plot, has a non-zero
    divisor.) *)
Definition py_truediv (a b : R) : py_result R :=
  if Req_dec_T b 0 then Raise ZeroDivisionError else Ok (a / b).

(** The largest finite binary64 value is [2^1024 - 2^971]; a real
    result of magnitude [2^1024 - 2^970] or more rounds to an
    infinity. *)
Definition float_overflow : R := IZR (2 ^ 1024 - 2 ^ 970).

(** The result of a float operation that reports an overflow: CPython
    turns the infinity that the C library returns into
    [OverflowError]. *)
Definition float_result (r : R) : py_result py_value :=
  if Rle_dec float_overflow (Rabs r) then Raise OverflowError
  else Ok (PyFloat r).

(** [v ** w] on Python floats, as CPython's [float_pow] decides it for
    finite operands:
      - anything to the power 0 is 1.0;
      - 0.0 to a negative power raises, to a positive power is 0.0;
      - a negative base with a non-integral exponent gives a complex
        number (modulus [|v|^w], argument [pi*w]), and
        [OverflowError] when the modulus overflows;
      - a negative base with an integral exponent is the signed power;
      - a positive base gives [exp (w * ln v)];
      - a real power that overflows raises [OverflowError]. *)
Definition py_float_pow (v w : R) : py_result py_value :=
  if Req_dec_T w 0 then Ok (PyFloat 1)
  else if Req_dec_T v 0 then
    if Rlt_dec w 0 then Raise ZeroDivisionError else Ok (PyFloat 0)
  else if Rlt_dec v 0 then
    if Req_dec_T w (IZR (Int_part w))
    then float_result (powerRZ v (Int_part w))
    else
      let modulus := Rpower (- v) w in
      if Rle_dec float_overflow modulus then Raise OverflowError
      else Ok (PyComplex (modulus * cos (PI * w)) (modulus * sin (PI * w)))
  else float_result (Rpower v w).

(** An exponent is integral when it is the image of an integer. *)
Definition integral (w : R) : Prop := exists k : Z, w = IZR k.

(** Ordinary magnitudes.  The quotient and the power are computed in
    binary64: a real value between [2^-1000] and [2^1000] is well inside
    the normal range, where rounding is a relative error of [2^-53] and
    neither operation overflows or underflows; with an exponent of at
    most [2^20] in magnitude the rounding of the base changes the power
    by a relative error below [2^-30]. *)
Definition ordinary (x : R) : Prop := / 2 ^ 1000 <= Rabs x <= 2 ^ 1000.

Definition ordinary_power (v w : R) : Prop :=
  ordinary v /\ Rabs w <= 2 ^ 20 /\ ordinary (Rpower (Rabs v) w).

(** ** NumPy float64 scalars *)

(** A float64 as NumPy scalar arithmetic can return it.  NumPy does not
    raise on a division by zero: it warns and returns an infinity or
    NaN. *)
Inductive np_float : Type :=
| Fin (r : R)
| PInf
| NInf
| NaN.

Definition np_sign (r : R) : comparison :=
  if Rlt_dec 0 r then Gt else if Rlt_dec r 0 then Lt else Eq.

(** The infinity of a given sign; a zero sign has no infinity. *)
Definition np_inf (s : comparison) : np_float :=
  match s with Gt => PInf | Lt => NInf | Eq => NaN end.

Definition np_add (x y : np_float) : np_float :=
  match x, y with
  | NaN, _ | _, NaN => NaN
  | Fin a, Fin b => Fin (a + b)
  | PInf, NInf | NInf, PInf => NaN
  | PInf, _ | _, PInf => PInf
  | NInf, _ | _, NInf => NInf
  end.

Definition np_mul (x y : np_float) : np_float :=
  match x, y with
  | NaN, _ | _, NaN => NaN
  | Fin a, Fin b => Fin (a * b)
  | Fin a, PInf | PInf, Fin a => np_inf (np_sign a)
  | Fin a, NInf | NInf, Fin a => np_inf (CompOpp (np_sign a))
  | PInf, PInf | NInf, NInf => PInf
  | PInf, NInf | NInf, PInf => NInf
  end.

(** [x / y] for finite operands: [0/0] is NaN, [x/0] the infinity of
    the sign of [x].  The reals have one zero, which stands for the
    float [+0.0] here (what a difference [x - x] gives); dividing by
    [-0.0] gives the infinity of the opposite sign. *)
Definition np_div (x y : R) : np_float :=
  if Req_dec_T y 0 then np_inf (np_sign x) else Fin (x / y).

(** [np.exp]; an overflow warns and gives the infinity. *)
Definition np_exp (x : np_float) : np_float :=
  match x with
  | Fin r => if Rle_dec float_overflow (exp r) then PInf else Fin (exp r)
  | PInf => PInf
  | NInf => Fin 0
  | NaN => NaN
  end.

(** [a < b] on floats; every comparison with NaN is false. *)
Definition np_ltb (x y : np_float) : bool :=
  match x, y with
  | NaN, _ | _, NaN => false
  | Fin a, Fin b => if Rlt_dec a b then true else false
  | NInf, NInf | PInf, _ | _, NInf => false
  | NInf, _ | _, PInf => true
  end.

(** Python's built-in [min(a, b)] and [max(a, b)]: the first argument is
    kept unless the second is strictly smaller (larger).  A NaN first
    argument is therefore returned as it is. *)
Definition py_min (a b : np_float) : np_float := if np_ltb b a then b else a.
Definition py_max (a b : np_float) : np_float := if np_ltb a b then b else a.

(** [min(a, b)] on finite values. *)
Definition py_minR (a b : R) : R := if Rlt_dec b a then b else a.

(** [np.max] of a one-dimensional array of finite values; it raises
    [ValueError] on an empty array. *)
Definition np_max (xs : list R) : py_result R :=
  match xs with
  | [] => Raise ValueError
  | x :: rest => Ok (fold_left Rmax rest x)
  end.

(* ================================================================= *)
(** * Part II.  custom_tire_curve_generator.py *)

(** ** [calculate_load_scaling] *)

(** [(vertical_load / fz0) ** ls_exp] on Python scalars, which is how the
    curve builder's callers pass the load and the reference load. *)
Definition calculate_load_scaling (vertical_load fz0 ls_exp : R)
  : py_result py_value :=
  q <- py_truediv vertical_load fz0 ;;
  py_float_pow q ls_exp.

(** ** [create_realistic_tire_curve] *)

(** The five branch bodies of the loop.  [cornering_stiffness] is a local
    variable assigned in the first branch only; the second branch reads
    it. *)
Definition cornering_stiffness_of (peak_grip : R) : R :=
  peak_grip / radians 6.0.

Definition linear_region (peak_grip angle : R) : R :=
  let cornering_stiffness := cornering_stiffness_of peak_grip in
  cornering_stiffness * radians angle.

Definition transition_region (peak_grip cornering_stiffness angle : R) : R :=
  let linear_force := cornering_stiffness * radians 2.0 in
  let transition_progress := (angle - 2.0) / (5.5 - 2.0) in
  let transition_factor :=
    3 * transition_progress ^ 2 - 2 * transition_progress ^ 3 in
  linear_force + (peak_grip - linear_force) * transition_factor.

Definition plateau_region (peak_grip angle : R) : R :=
  let plateau_factor := 1.0 - 0.02 * (angle - 5.5) in
  peak_grip * plateau_factor.

Definition moderate_falloff (peak_grip angle : R) : R :=
  let plateau_end_force := peak_grip * 0.95 in
  let falloff_progress := (angle - 8.0) / (12.0 - 8.0) in
  let target_retention := 0.75 in
  plateau_end_force * (1.0 - falloff_progress * (1 - target_retention)).

Definition steep_falloff (peak_grip angle : R) : R :=
  let plateau_end_force := peak_grip * 0.95 in
  let initial_falloff := plateau_end_force * 0.75 in
  let steep_progress := py_minR ((angle - 12.0) / 8.0) 1.0 in
  let final_retention := 0.60 in
  initial_falloff *
  (final_retention + (1 - final_retention) * (1 - steep_progress)).

(** One iteration of the loop: the force stored at this index and the
    binding of [cornering_stiffness] afterwards ([None]: unbound). *)
Definition curve_step (peak_grip : R) (cornering_stiffness : option R)
  (angle : R) : py_result (R * option R) :=
  if Rle_dec angle 2.0 then
    Ok (linear_region peak_grip angle,
        Some (cornering_stiffness_of peak_grip))
  else if Rle_dec angle 5.5 then
    match cornering_stiffness with
    | None => Raise UnboundLocalError
    | Some cs => Ok (transition_region peak_grip cs angle, Some cs)
    end
  else if Rle_dec angle 8.0 then
    Ok (plateau_region peak_grip angle, cornering_stiffness)
  else if Rle_dec angle 12.0 then
    Ok (moderate_falloff peak_grip angle, cornering_stiffness)
  else
    Ok (steep_falloff peak_grip angle, cornering_stiffness).

(** The loop over [slip_angles], left to right.  The series is a
    float64 array, as [np.linspace] builds it, and so is
    [np.zeros_like(slip_angles)]. *)
Fixpoint curve_loop (peak_grip : R) (cornering_stiffness : option R)
  (slip_angles : list R) : py_result (list R) :=
  match slip_angles with
  | [] => Ok []
  | angle :: rest =>
      '(force, cs) <- curve_step peak_grip cornering_stiffness angle ;;
      forces <- curve_loop peak_grip cs rest ;;
      Ok (force :: forces)
  end.

(** A complex [load_scale] makes [peak_grip] and every force computed
    from it a Python complex number, and storing one into the float64
    array [forces] raises [TypeError].  The loop then stops in its
    first iteration: at that store, or before it at the read of the
    unbound [cornering_stiffness]. *)
Definition complex_peak_grip (slip_angles : list R) : py_result (list R) :=
  match slip_angles with
  | [] => Ok []
  | angle :: _ =>
      if Rle_dec angle 2.0 then Raise TypeError
      else if Rle_dec angle 5.5 then Raise UnboundLocalError
      else Raise TypeError
  end.

Definition create_realistic_tire_curve
  (slip_angles : list R) (dy_ref fz0 ls_exp vertical_load : R)
  : py_result (list R) :=
  load_scale <- calculate_load_scaling vertical_load fz0 ls_exp ;;
  match load_scale with
  | PyFloat s =>
      let peak_grip := dy_ref * s in
      curve_loop peak_grip None slip_angles
  | PyComplex _ _ => complex_peak_grip slip_angles
  end.

(** The force the loop stores for an angle once [cornering_stiffness] is
    bound: the curve as a function of the angle alone. *)
Definition curve_value (peak_grip angle : R) : R :=
  if Rle_dec angle 2.0 then linear_region peak_grip angle
  else if Rle_dec angle 5.5 then
    transition_region peak_grip (cornering_stiffness_of peak_grip) angle
  else if Rle_dec angle 8.0 then plateau_region peak_grip angle
  else if Rle_dec angle 12.0 then moderate_falloff peak_grip angle
  else steep_falloff peak_grip angle.

(** The first sample the loop cannot evaluate, if any: a sample in
    (2.0, 5.5] that no sample <= 2.0 precedes. *)
Fixpoint reads_unbound (slip_angles : list R) : Prop :=
  match slip_angles with
  | [] => False
  | angle :: rest =>
      if Rle_dec angle 2.0 then False
      else if Rle_dec angle 5.5 then True
      else reads_unbound rest
  end.

(** ** The words of the specification for the falloff segments *)

(** Linear interpolation from [a] (progress 0) to [b] (progress 1). *)
Definition lerp (a b t : R) : R := a + (b - a) * t.

Definition spec_moderate_falloff (peak_grip angle : R) : R :=
  let plateau_end := peak_grip * 0.95 in
  lerp plateau_end (0.75 * plateau_end) ((angle - 8.0) / (12.0 - 8.0)).

Definition spec_steep_falloff (peak_grip angle : R) : R :=
  let plateau_end := peak_grip * 0.95 in
  lerp (0.75 * plateau_end) (0.60 * (0.75 * plateau_end))
       (Rmin ((angle - 12.0) / 8.0) 1).

(** ** [generate_lut_file], lines 77-78: normalisation *)

(** [peak_force = np.max(forces)] and [forces / peak_force].  The
    division is NumPy's elementwise one: a zero peak gives NaN or an
    infinity at every index and no exception. *)
Definition normalize_forces (forces : list R) : py_result (list np_float) :=
  peak_force <- np_max forces ;;
  Ok (map (fun force => np_div force peak_force) forces).

(** The words of the specification: the maximum of a series is an
    entry of the series that no entry exceeds. *)
Definition is_maximum (m : R) (series : list R) : Prop :=
  In m series /\ forall x : R, In x series -> x <= m.

(* ================================================================= *)
(** * Part III.  tire_chatter_generator.py *)

(** ** [create_chatter_tire_curve] *)

Section Chatter.

Variables chatter_start chatter_intensity chatter_frequency : R.

(** The value left at index [i] by the loop body, for the angle and
    the base force at that index.  The angle is a float64 taken from
    the array, so the division that defines the progress is NumPy's. *)
Definition chatter_sample (angle base_force : R) : np_float :=
  if Rge_dec angle chatter_start then
    let chatter_progress :=
      py_min (np_div (angle - chatter_start) (20.0 - chatter_start))
             (Fin 1.0) in
    let high_freq := sin (angle * chatter_frequency * 8) * 0.6 in
    let med_freq := sin (angle * chatter_frequency * 3) * 0.3 in
    let low_freq := sin (angle * chatter_frequency * 1) * 0.1 in
    let noise_component :=
      high_freq + med_freq * cos (angle * 0.7)
      + low_freq * sin (angle * 1.3) in
    let scaled_noise :=
      np_mul (Fin (noise_component * chatter_intensity)) chatter_progress in
    let random_factor :=
      sin (angle * 13.7) * 0.1 + cos (angle * 7.3) * 0.05 in
    py_max
      (np_mul (Fin base_force)
         (np_add (np_add (Fin 1) scaled_noise)
                 (np_mul (Fin random_factor) chatter_progress)))
      (Fin (base_force * 0.1))
  else Fin base_force.

(** [chattering_forces = base_forces.copy()] followed by the loop over
    [enumerate(slip_angles)].  The result has the length of
    [base_forces]; reading [base_forces[i]] past its end raises. *)
Fixpoint chatter_loop (slip_angles base_forces : list R)
  : py_result (list np_float) :=
  match slip_angles with
  | [] => Ok (map Fin base_forces)
  | angle :: angles =>
      match base_forces with
      | [] =>
          if Rge_dec angle chatter_start then Raise IndexError
          else chatter_loop angles []
      | base_force :: rest =>
          forces <- chatter_loop angles rest ;;
          Ok (chatter_sample angle base_force :: forces)
      end
  end.

Definition create_chatter_tire_curve
  (slip_angles : list R) (dy_ref fz0 ls_exp vertical_load : R)
  : py_result (list np_float) :=
  base_forces <-
    create_realistic_tire_curve slip_angles dy_ref fz0 ls_exp vertical_load ;;
  chatter_loop slip_angles base_forces.

End Chatter.

(** [a >= b] between a float and a finite bound; false on NaN. *)
Definition np_geb (x : np_float) (bound : R) : bool :=
  match x with
  | Fin r => if Rge_dec r bound then true else false
  | PInf => true
  | NInf | NaN => false
  end.

(* ================================================================= *)
(** * Part IV.  tire_curve_plotter.py *)

(** ** [ac_tire_model] *)

Section BrushModel.

Variables dy_ref friction_limit_angle falloff_level falloff_speed : R.

Definition ac_tire_sample (angle : R) : np_float :=
  let friction_limit_rad := radians friction_limit_angle in
  if Rle_dec angle friction_limit_angle then
    Fin (dy_ref * radians angle)
  else
    let excess_angle := angle - friction_limit_angle in
    let peak_force := dy_ref * friction_limit_rad in
    let falloff_factor :=
      np_exp (np_div (- falloff_speed * excess_angle)
                     friction_limit_angle) in
    let post_peak_force :=
      np_mul (Fin peak_force)
             (np_add (Fin falloff_level)
                     (np_mul (Fin (1 - falloff_level)) falloff_factor)) in
    post_peak_force.

Definition ac_tire_model (slip_angle : list R) : list np_float :=
  map ac_tire_sample slip_angle.

End BrushModel.

(* ================================================================= *)
(** * Part V.  The lookup-table text *)

(** [generate_lut_file], lines 80-89, and [generate_chatter_lut_files],
    lines 212-222: the header comment lines, then for every pair of
    [zip(slip_angles, normalized_forces)] the line
    [f"{angle:.1f}|{force:.4f}\n"].  A finite float64 is a rational, so
    the values to print are rationals and the formatter is exact. *)

Section LutText.

Local Open Scope string_scope.
Local Open Scope Z_scope.

(** A float64 handed to a format specification: finite (a rational),
    an infinity or NaN. *)
Inductive lut_number : Type :=
| LFin (q : Q)
| LInf (negative : bool)
| LNaN.

(** [|q| * 10^k] rounded to the nearest integer, ties to even. *)
Definition scaled_round (k : nat) (q : Q) : Z :=
  let num := Z.abs (Qnum q) * 10 ^ Z.of_nat k in
  let den := Zpos (Qden q) in
  let fl := num / den in
  let rem := num mod den in
  match 2 * rem ?= den with
  | Lt => fl
  | Gt => fl + 1
  | Eq => if Z.even fl then fl else fl + 1
  end.

(** The character of a decimal digit. *)
Definition digit_char (d : Z) : ascii := ascii_of_nat (48 + Z.to_nat d).

(** The last [k] decimal digits of [v], most significant first. *)
Fixpoint fixed_digits (k : nat) (v : Z) : string :=
  match k with
  | O => ""
  | S k' => fixed_digits k' (v / 10) ++ String (digit_char (v mod 10)) ""
  end.

(** The number of decimal digits of [v >= 0] (1 for 0). *)
Fixpoint width_upto (fuel : nat) (v : Z) : nat :=
  match fuel with
  | O => 1
  | S fuel' => if v <? 10 then 1%nat else S (width_upto fuel' (v / 10))
  end.

(** The fuel covers every digit: [v] has at most [log2 v + 1] digits. *)
Definition dec_width (v : Z) : nat := width_upto (Z.to_nat (Z.log2 v) + 1) v.

(** [v >= 0] in decimal, without leading zeros. *)
Definition dec_string (v : Z) : string := fixed_digits (dec_width v) v.

(** [format(x, '.kf')] for a finite [x]: the sign, the integer part and
    [k] digits of [|x|] rounded half to even; a negative value keeps
    its sign when it rounds to zero. *)
Definition format_fixed (k : nat) (q : Q) : string :=
  let m := scaled_round k q in
  let scale := 10 ^ Z.of_nat k in
  (if Qnum q <? 0 then "-" else "")
  ++ dec_string (m / scale)
  ++ match k with
     | O => ""
     | S _ => "." ++ fixed_digits k (m mod scale)
     end.

(** [format(x, '.kf')] for any float. *)
Definition format_f (k : nat) (x : lut_number) : string :=
  match x with
  | LFin q => format_fixed k q
  | LInf false => "inf"
  | LInf true => "-inf"
  | LNaN => "nan"
  end.

Definition newline : ascii := "010"%char.

(** The text of one sample, and the line written for it. *)
Definition line_body (angle force : lut_number) : string :=
  format_f 1 angle ++ "|" ++ format_f 4 force.

(** Every [f.write] ends its line with a newline. *)
Definition end_line (line : string) : string := line ++ String newline "".

Definition write_lines (lines : list string) : string :=
  fold_right append "" (map end_line lines).

(** The text written to the file: the header lines, then one line per
    pair of [zip(slip_angles, normalized_forces)]. *)
Definition lut_text (header : list string)
  (slip_angles normalized_forces : list lut_number) : string :=
  write_lines
    (header
     ++ map (fun p => line_body (fst p) (snd p))
            (combine slip_angles normalized_forces))%list.

(** The header of [generate_lut_file]. *)
Definition custom_header : list string :=
  [ "; Custom DY_CURVE for realistic slip angle behavior";
    "; Generated from research data: OptimumG, Paul Haney, MATLAB Pacejka";
    "; Includes plateau region (5.5-8°) and progressive falloff";
    ";";
    "; Format: slip_angle_degrees|normalized_lateral_force";
    ";" ].

(** The header of [generate_chatter_lut_files] for the curve [name]. *)
Definition chatter_header (name : string) : list string :=
  [ "; Experimental chatter tire curve: " ++ name;
    "; WARNING: This is experimental and may cause unrealistic behavior";
    "; Progressive chatter noise beyond 10° slip angle";
    "; Simulates tire juddering/chattering at extreme slip angles";
    ";";
    "; Format: slip_angle_degrees|normalized_lateral_force";
    ";" ].

(** ** Reading a table back

    Modelled from the spec: the reader of the LUT text belongs to the
    simulation that consumes the file and is not in the repository.  The
    spec describes it as re-parsing the text by splitting each data line
    on the pipe character; comment lines begin with a semicolon, and
    both fields are fixed-point decimal numbers. *)

(** Modelled from the spec: [str.split(sep)], the fields between the
    occurrences of [sep]. *)
Fixpoint split_on (sep : ascii) (s : string) : list string :=
  match s with
  | "" => [""]
  | String c rest =>
      if Ascii.eqb c sep then "" :: split_on sep rest
      else match split_on sep rest with
           | [] => [String c ""]
           | field :: fields => String c field :: fields
           end
  end.

(** Modelled from the spec: the value of a decimal digit. *)
Definition digit_value (c : ascii) : option Z :=
  let n := Z.of_nat (nat_of_ascii c) in
  if (48 <=? n) && (n <=? 57) then Some (n - 48) else None.

(** Modelled from the spec: a run of decimal digits read as a number. *)
Fixpoint parse_digits (s : string) (acc : Z) : option Z :=
  match s with
  | "" => Some acc
  | String c rest =>
      match digit_value c with
      | Some d => parse_digits rest (10 * acc + d)
      | None => None
      end
  end.

(** Modelled from the spec: an unsigned fixed-point field, digits on
    both sides of one point, read as the exact decimal it spells. *)
Definition parse_unsigned (s : string) : option Q :=
  match split_on "." s with
  | [int_part; frac_part] =>
      match int_part, frac_part with
      | "", _ | _, "" => None
      | _, _ =>
        match parse_digits int_part 0, parse_digits frac_part 0 with
        | Some i, Some f =>
            let scale := 10 ^ Z.of_nat (String.length frac_part) in
            Some (Qmake (i * scale + f) (Z.to_pos scale))
        | _, _ => None
        end
      end
  | _ => None
  end.

(** Modelled from the spec: a fixed-point field with an optional minus
    sign. *)
Definition parse_decimal (s : string) : option Q :=
  match s with
  | String "-" rest =>
      match parse_unsigned rest with
      | Some q => Some (Qmake (- Qnum q) (Qden q))
      | None => None
      end
  | _ => parse_unsigned s
  end.

(** Modelled from the spec: one data line, split on the pipe character
    into the angle and the force. *)
Definition parse_line (line : string) : option (Q * Q) :=
  match split_on "|" line with
  | [a; f] =>
      match parse_decimal a, parse_decimal f with
      | Some qa, Some qf => Some (qa, qf)
      | _, _ => None
      end
  | _ => None
  end.

(** Modelled from the spec: a data line is a line that is neither empty
    nor a comment. *)
Definition is_data_line (line : string) : bool :=
  match line with
  | "" => false
  | String ";" _ => false
  | _ => true
  end.

(** Modelled from the spec: the data lines of a file, in order. *)
Fixpoint parse_lines (lines : list string) : option (list (Q * Q)) :=
  match lines with
  | [] => Some []
  | line :: rest =>
      if is_data_line line then
        match parse_line line, parse_lines rest with
        | Some p, Some ps => Some (p :: ps)
        | _, _ => None
        end
      else parse_lines rest
  end.

(** Modelled from the spec: the samples of a LUT text. *)
Definition parse_lut (text : string) : option (list (Q * Q)) :=
  parse_lines (split_on newline text).

(** Every character of [s] satisfies [p]. *)
Fixpoint string_forall (p : ascii -> bool) (s : string) : bool :=
  match s with
  | "" => true
  | String c rest => p c && string_forall p rest
  end.

(** The characters a printed number is made of. *)
Definition is_digit (c : ascii) : bool :=
  match digit_value c with Some _ => true | None => false end.

Definition numeric_char (c : ascii) : bool :=
  is_digit c || Ascii.eqb c "-" || Ascii.eqb c ".".

(** [s] does not contain the character [sep]. *)
Definition lacks (sep : ascii) (s : string) : bool :=
  string_forall (fun c => negb (Ascii.eqb c sep)) s.

(** A header line: it begins with a semicolon and holds no newline. *)
Definition comment_line (line : string) : bool :=
  match line with
  | String ";" _ => lacks newline line
  | _ => false
  end.

(** A value rounded to [k] decimal digits (nearest, ties to even), as a
    fraction over [10^k]. *)
Definition round_decimals (k : nat) (q : Q) : Q :=
  let m := scaled_round k q in
  Qmake (if Qnum q <? 0 then - m else m) (Z.to_pos (10 ^ Z.of_nat k)).

(** The words of the specification: [r] is [q] rounded to [k] decimal
    digits when [r] is a whole number [n] of units [10^-k], no unit
    [10^-k] is nearer to [q], that is [r] is within half a unit of [q],
    and, where [q] lies half-way between two units, [n] is the even
    one (the rule of Python's fixed-point formatting). *)
Definition rounded_to (k : nat) (q r : Q) : Prop :=
  exists n : Z,
    r = Qmake n (Z.to_pos (10 ^ Z.of_nat k))
    /\ (Qabs (r - q) <= 1 # (2 * Z.to_pos (10 ^ Z.of_nat k)))%Q
    /\ ((Qabs (r - q) == 1 # (2 * Z.to_pos (10 ^ Z.of_nat k)))%Q ->
        Z.even n = true).

End LutText.

(* ================================================================= *)
(** * Part VI.  The drivers *)

(** ** [plot_load_sensitivity_analysis], lines 158-171 *)

(** The "current AC" comparison curve that the driver computes in
    place, with its own constants; [dy_ref] is the driver's local. *)
Definition current_ac_sample (dy_ref angle : R) : R :=
  let peak_angle := 8.5 in
  let falloff_level := 0.6 in
  let falloff_speed := 8 in
  if Rle_dec angle peak_angle then
    dy_ref * radians angle / radians peak_angle
  else
    let excess := angle - peak_angle in
    let peak_force := dy_ref in
    let falloff_factor := exp (- falloff_speed * excess / peak_angle) in
    peak_force * (falloff_level + (1 - falloff_level) * falloff_factor).

Definition current_ac_forces (dy_ref : R) (slip_angles : list R) : list R :=
  map (current_ac_sample dy_ref) slip_angles.

(** ** [generate_chatter_lut_files], lines 203-210 *)

(** [x / y] on float64 values that may be infinite or NaN. *)
Definition np_div_float (x y : np_float) : np_float :=
  match x, y with
  | NaN, _ | _, NaN => NaN
  | Fin a, Fin b => np_div a b
  | Fin _, (PInf | NInf) => Fin 0
  | PInf, Fin b => if Rlt_dec b 0 then NInf else PInf
  | NInf, Fin b => if Rlt_dec b 0 then PInf else NInf
  | (PInf | NInf), (PInf | NInf) => NaN
  end.

(** [np.maximum]: the larger value; a NaN operand gives NaN. *)
Definition np_maximum (x y : np_float) : np_float :=
  match x, y with
  | NaN, _ | _, NaN => NaN
  | _, _ => if np_ltb x y then y else x
  end.

(** [np.max] of a float64 array; NaN entries propagate. *)
Definition np_max_float (xs : list np_float) : py_result np_float :=
  match xs with
  | [] => Raise ValueError
  | x :: rest => Ok (fold_left np_maximum rest x)
  end.

(** [peak_force = np.max(forces)] and [forces / peak_force] for one
    chatter curve. *)
Definition normalize_chatter_forces (forces : list np_float)
  : py_result (list np_float) :=
  peak_force <- np_max_float forces ;;
  Ok (map (fun force => np_div_float force peak_force) forces).

Section SafeName.

Local Open Scope string_scope.

(** [str.lower] on one ASCII character. *)
Definition ascii_lower (c : ascii) : ascii :=
  let n := nat_of_ascii c in
  if ((65 <=? n) && (n <=? 90))%nat then ascii_of_nat (n + 32) else c.

(** [name.lower()] for a name made of ASCII characters, as every name
    of [chatter_configs] is. *)
Fixpoint str_lower (s : string) : string :=
  match s with
  | "" => ""
  | String c rest => String (ascii_lower c) (str_lower rest)
  end.

(** [s.replace(old, new)] for one-character [old] and [new]. *)
Fixpoint str_replace_char (old new : ascii) (s : string) : string :=
  match s with
  | "" => ""
  | String c rest =>
      String (if Ascii.eqb c old then new else c)
             (str_replace_char old new rest)
  end.

(** [safe_name = name.lower().replace(' ', '_').replace('-', '_')]. *)
Definition safe_name (name : string) : string :=
  str_replace_char "-" "_" (str_replace_char " " "_" (str_lower name)).

Definition chatter_lut_filename (name : string) : string :=
  "/Users/ferchak/src/ssc-mod/research/dy_curve_chatter_"
  ++ safe_name name ++ ".lut".

(** The characters [safe_name] never leaves in a name. *)
Definition safe_char (c : ascii) : bool :=
  let n := nat_of_ascii c in
  negb (Ascii.eqb c " ") && negb (Ascii.eqb c "-")
  && negb ((65 <=? n) && (n <=? 90))%nat.

(** A character of the ASCII range. *)
Definition ascii_char (c : ascii) : bool := (nat_of_ascii c <? 128)%nat.

End SafeName.

(** ** The series and parameters of the drivers *)

(** [np.linspace(start, stop, num)]: [num] evenly spaced samples, the
    first [start] and the last [stop]. *)
Definition linspace (start stop : R) (num : nat) : list R :=
  map (fun i => start + INR i * ((stop - start) / INR (num - 1)))
      (seq 0 num).

(** [plot_load_sensitivity_analysis], lines 99-109 and 186-189: the
    forces at the reference load on [np.linspace(0, 15, 151)], and the
    normalised forces that [generate_lut_file] returns for them. *)
Definition custom_lut_values : py_result (list np_float) :=
  let dy_ref := 1.26 in
  let fz0 := 2494 in
  let ls_exp := 0.8119 in
  let slip_angles := linspace 0 15 151 in
  let reference_load := 2494 in
  reference_forces <-
    create_realistic_tire_curve slip_angles dy_ref fz0 ls_exp reference_load ;;
  normalize_forces reference_forces.

Section ChatterDriver.

Local Open Scope string_scope.

(** One entry of [chatter_configs]. *)
Record chatter_config : Type := {
  config_name : string;
  config_intensity : R;
  config_frequency : R;
  config_start : R
}.

Definition chatter_configs : list chatter_config :=
  [ {| config_name := "Subtle Chatter"; config_intensity := 0.08;
       config_frequency := 1.5; config_start := 12.0 |};
    {| config_name := "Moderate Chatter"; config_intensity := 0.15;
       config_frequency := 2.0; config_start := 10.0 |};
    {| config_name := "Aggressive Chatter"; config_intensity := 0.25;
       config_frequency := 3.0; config_start := 9.0 |};
    {| config_name := "High-Freq Buzz"; config_intensity := 0.12;
       config_frequency := 4.0; config_start := 11.0 |} ].

(** [d[key] = value] on a dict kept in insertion order: a key that is
    present keeps its place and gets the new value. *)
Fixpoint dict_set {V : Type} (key : string) (value : V)
  (d : list (string * V)) : list (string * V) :=
  match d with
  | [] => [(key, value)]
  | (k, v) :: rest =>
      if String.eqb k key then (k, value) :: rest
      else (k, v) :: dict_set key value rest
  end.

(** [generate_experimental_curves], lines 96-103: the loop that fills
    [chatter_curves], from the dict built so far. *)
Fixpoint chatter_curves_loop
  (slip_angles : list R) (dy_ref fz0 ls_exp reference_load : R)
  (configs : list chatter_config)
  (chatter_curves : list (string * list np_float))
  : py_result (list (string * list np_float)) :=
  match configs with
  | [] => Ok chatter_curves
  | config :: rest =>
      forces <-
        create_chatter_tire_curve (config_start config)
          (config_intensity config) (config_frequency config)
          slip_angles dy_ref fz0 ls_exp reference_load ;;
      chatter_curves_loop slip_angles dy_ref fz0 ls_exp reference_load rest
        (dict_set (config_name config) forces chatter_curves)
  end.

(** [generate_experimental_curves], lines 69-103, without the plots. *)
Definition experimental_chatter_curves
  : py_result (list (string * list np_float)) :=
  let dy_ref := 1.26 in
  let fz0 := 2494 in
  let ls_exp := 0.8119 in
  let reference_load := 2494 in
  let slip_angles := linspace 0 20 201 in
  chatter_curves_loop slip_angles dy_ref fz0 ls_exp reference_load
    chatter_configs [].

(** [generate_chatter_lut_files], lines 203-210: for every curve of the
    dict, in order, the file it is written to and the normalised forces
    that are written. *)
Fixpoint chatter_lut_files (chatter_curves : list (string * list np_float))
  : py_result (list (string * list np_float)) :=
  match chatter_curves with
  | [] => Ok []
  | (name, forces) :: rest =>
      normalized_forces <- normalize_chatter_forces forces ;;
      files <- chatter_lut_files rest ;;
      Ok ((chatter_lut_filename name, normalized_forces) :: files)
  end.

End ChatterDriver.

(* ================================================================= *)
(** * Part VII.  The brush model in binary64 *)

(** The definitions above compute with real numbers and do not round.
    Where rounding decides what [ac_tire_model] stores, its loop body
    is embedded a second time, every operation rounded to binary64 as
    NumPy rounds it.  A float is still read as the real number it
    denotes. *)

(** [floor (log2 |x|)]: the exponent of the binade of [x]. *)
Definition binade (x : R) : Z := Int_part (ln (Rabs x) / ln 2).

(** The spacing of the floats around [x]: [2^(binade x - 52)], and
    [2^-1074] throughout the subnormal range. *)
Definition ulp64 (x : R) : R := powerRZ 2 (Z.max (binade x) (-1022) - 52).

(** The nearest integer, a half-way value going to the even one. *)
Definition nearest_even (t : R) : Z :=
  let f := Int_part t in
  if Rlt_dec (t - IZR f) (1 / 2) then f
  else if Rlt_dec (1 / 2) (t - IZR f) then (f + 1)%Z
  else if Z.even f then f else (f + 1)%Z.

(** Rounding to the nearest float, ties to even.  There is no overflow
    here: the values rounded below are far from the range limit. *)
Definition round64 (x : R) : R := IZR (nearest_even (x / ulp64 x)) * ulp64 x.

(** [np.radians] in binary64: the argument times the constant
    [pi / 180], which is itself computed in binary64. *)
Definition radians64 (deg : R) : R :=
  round64 (deg * round64 (round64 PI / 180)).

(** [np.exp] in binary64, taken as correctly rounded. *)
Definition exp64 (x : R) : R := round64 (exp x).

(** The loop body of [ac_tire_model], lines 25-36, for float
    arguments. *)
Definition ac_tire_sample64
  (dy_ref friction_limit_angle falloff_level falloff_speed angle : R) : R :=
  let friction_limit_rad := radians64 friction_limit_angle in
  if Rle_dec angle friction_limit_angle then
    round64 (dy_ref * radians64 angle)
  else
    let excess_angle := round64 (angle - friction_limit_angle) in
    let peak_force := round64 (dy_ref * friction_limit_rad) in
    let falloff_factor :=
      exp64 (round64 (round64 (- falloff_speed * excess_angle)
                      / friction_limit_angle)) in
    let post_peak_force :=
      round64
        (peak_force
         * round64 (falloff_level
                    + round64 (round64 (1 - falloff_level)
                               * falloff_factor))) in
    post_peak_force.

(* ================================================================= *)
(** * Theorems *)

(** ** Scalars *)

Lemma radians_pos (d : R) : 0 < d -> 0 < radians d.
Proof.
  intros Hd. unfold radians.
  apply Rmult_lt_0_compat; [exact Hd|].
  apply Rdiv_lt_0_compat; [exact PI_RGT_0 | lra].
Qed.

Lemma radians_6_neq_0 : radians 6.0 <> 0.
Proof. assert (0 < radians 6.0) by (apply radians_pos; lra). lra. Qed.

Lemma py_minR_Rmin (a b : R) : py_minR a b = Rmin a b.
Proof.
  unfold py_minR, Rmin.
  destruct (Rlt_dec b a), (Rle_dec a b); lra.
Qed.

Lemma py_truediv_nonzero (a b : R) : b <> 0 -> py_truediv a b = Ok (a / b).
Proof.
  intros Hb. unfold py_truediv.
  destruct (Req_dec_T b 0); [contradiction | reflexivity].
Qed.

(** The overflow threshold is far above every value of the scripts. *)
Lemma float_overflow_large : 1000000 < float_overflow.
Proof. unfold float_overflow. apply IZR_lt. reflexivity. Qed.

Lemma float_result_in_range (r : R) :
  Rabs r < float_overflow -> float_result r = Ok (PyFloat r).
Proof.
  intros H. unfold float_result.
  destruct (Rle_dec float_overflow (Rabs r)); [lra | reflexivity].
Qed.

Lemma float_result_overflow (r : R) :
  float_overflow <= Rabs r -> float_result r = Raise OverflowError.
Proof.
  intros H. unfold float_result.
  destruct (Rle_dec float_overflow (Rabs r)); [reflexivity | lra].
Qed.

Lemma float_result_returned (r : R) (x : py_value) :
  float_result r = Ok x -> x = PyFloat r /\ Rabs r < float_overflow.
Proof.
  unfold float_result.
  destruct (Rle_dec float_overflow (Rabs r)); [discriminate|].
  intros H. injection H as <-. split; [reflexivity | lra].
Qed.

Lemma Rpower_pos (v w : R) : 0 < Rpower v w.
Proof. apply exp_pos. Qed.

Lemma Rabs_Rpower (v w : R) : Rabs (Rpower v w) = Rpower v w.
Proof. apply Rabs_right. left. apply Rpower_pos. Qed.

(** A positive base: the real power, unless it overflows. *)
Lemma py_float_pow_pos_result (v w : R) :
  0 < v -> py_float_pow v w = float_result (Rpower v w).
Proof.
  intros Hv. unfold py_float_pow.
  destruct (Req_dec_T w 0) as [-> | Hw].
  - rewrite Rpower_O by exact Hv.
    rewrite float_result_in_range; [reflexivity|].
    rewrite Rabs_R1. assert (H := float_overflow_large). lra.
  - destruct (Req_dec_T v 0); [lra|].
    destruct (Rlt_dec v 0); [lra | reflexivity].
Qed.

Lemma py_float_pow_pos (v w : R) :
  0 < v -> Rpower v w < float_overflow ->
  py_float_pow v w = Ok (PyFloat (Rpower v w)).
Proof.
  intros Hv Hr. rewrite py_float_pow_pos_result by exact Hv.
  apply float_result_in_range. rewrite Rabs_Rpower. exact Hr.
Qed.

Lemma calculate_load_scaling_pos_result (vertical_load fz0 ls_exp : R) :
  0 < vertical_load / fz0 ->
  fz0 <> 0 ->
  calculate_load_scaling vertical_load fz0 ls_exp
  = float_result (Rpower (vertical_load / fz0) ls_exp).
Proof.
  intros Hq Hz. unfold calculate_load_scaling.
  rewrite py_truediv_nonzero by exact Hz. simpl.
  apply py_float_pow_pos_result; exact Hq.
Qed.

Lemma calculate_load_scaling_pos (vertical_load fz0 ls_exp : R) :
  0 < vertical_load / fz0 ->
  fz0 <> 0 ->
  Rpower (vertical_load / fz0) ls_exp < float_overflow ->
  calculate_load_scaling vertical_load fz0 ls_exp
  = Ok (PyFloat (Rpower (vertical_load / fz0) ls_exp)).
Proof.
  intros Hq Hz Hr. rewrite calculate_load_scaling_pos_result by assumption.
  apply float_result_in_range. rewrite Rabs_Rpower. exact Hr.
Qed.

(** Powers of the magnitudes the scripts use stay in range: for an
    exponent in [0, 1] the power lies between 1 and the base. *)
Lemma Rpower_moderate (q e : R) :
  0 < q -> 0 <= e <= 1 -> Rpower q e <= 1 + q.
Proof.
  intros Hq [He0 He1].
  destruct (Rle_dec q 1) as [Hle | Hgt].
  - assert (H : Rpower q e <= Rpower 1 e)
      by (apply Rle_Rpower_l; lra).
    unfold Rpower at 2 in H. rewrite ln_1, Rmult_0_r, exp_0 in H. lra.
  - assert (H : Rpower q e <= Rpower q 1)
      by (apply Rle_Rpower; lra).
    rewrite Rpower_1 in H by exact Hq. lra.
Qed.

Lemma scaling_in_range (q e : R) :
  0 < q <= 1000 -> 0 <= e <= 1 -> Rpower q e < float_overflow.
Proof.
  intros Hq He.
  assert (H := Rpower_moderate q e ltac:(lra) He).
  assert (Hbig := float_overflow_large). lra.
Qed.

(** The side conditions of the builder at concrete parameters. *)
Ltac valid_parameters := first [lra | apply scaling_in_range; lra].

(** ** The loop of [create_realistic_tire_curve] *)

(** Decimal literals are rationals injected into the reals; unfolding
    the injection leaves quotients of integers, which [field] knows. *)
Ltac decimals := cbv [Q2R Qnum Qden].

(** Branch selection, one lemma per branch. *)
Ltac pick_branch :=
  repeat match goal with
  | |- context [Rle_dec ?a ?b] => destruct (Rle_dec a b); try lra
  | |- context [Rlt_dec ?a ?b] => destruct (Rlt_dec a b); try lra
  | |- context [Rge_dec ?a ?b] => destruct (Rge_dec a b); try lra
  end; try reflexivity.

Lemma curve_value_linear (pg a : R) :
  a <= 2 -> curve_value pg a = linear_region pg a.
Proof. intros H. unfold curve_value. pick_branch. Qed.

Lemma curve_value_transition (pg a : R) :
  2 < a <= 5.5 ->
  curve_value pg a = transition_region pg (cornering_stiffness_of pg) a.
Proof. intros H. unfold curve_value. pick_branch. Qed.

Lemma curve_value_plateau (pg a : R) :
  5.5 < a <= 8 -> curve_value pg a = plateau_region pg a.
Proof. intros H. unfold curve_value. pick_branch. Qed.

Lemma curve_value_moderate (pg a : R) :
  8 < a <= 12 -> curve_value pg a = moderate_falloff pg a.
Proof. intros H. unfold curve_value. pick_branch. Qed.

Lemma curve_value_steep (pg a : R) :
  12 < a -> curve_value pg a = steep_falloff pg a.
Proof. intros H. unfold curve_value. pick_branch. Qed.

(** Once [cornering_stiffness] is bound it stays bound to the same
    value, and every iteration stores [curve_value]. *)
Lemma curve_step_bound (pg a : R) :
  curve_step pg (Some (cornering_stiffness_of pg)) a
  = Ok (curve_value pg a, Some (cornering_stiffness_of pg)).
Proof.
  unfold curve_step, curve_value.
  destruct (Rle_dec a 2.0); [reflexivity|].
  destruct (Rle_dec a 5.5); [reflexivity|].
  destruct (Rle_dec a 8.0); [reflexivity|].
  destruct (Rle_dec a 12.0); reflexivity.
Qed.

Lemma curve_loop_bound (pg : R) (angles : list R) :
  curve_loop pg (Some (cornering_stiffness_of pg)) angles
  = Ok (map (curve_value pg) angles).
Proof.
  induction angles as [|a rest IH]; [reflexivity|].
  simpl. rewrite curve_step_bound. simpl. rewrite IH. reflexivity.
Qed.

(** From the unbound state the loop raises exactly when a sample in
    (2.0, 5.5] comes before every sample <= 2.0. *)
Lemma curve_loop_unbound_raises (pg : R) (angles : list R) :
  reads_unbound angles ->
  curve_loop pg None angles = Raise UnboundLocalError.
Proof.
  induction angles as [|a rest IH]; simpl; [tauto|].
  unfold curve_step.
  destruct (Rle_dec a 2.0); [tauto|].
  destruct (Rle_dec a 5.5); [reflexivity|].
  intros Hr.
  destruct (Rle_dec a 8.0); [|destruct (Rle_dec a 12.0)];
    simpl; rewrite (IH Hr); reflexivity.
Qed.

Lemma curve_loop_unbound_ok (pg : R) (angles : list R) :
  ~ reads_unbound angles ->
  curve_loop pg None angles = Ok (map (curve_value pg) angles).
Proof.
  induction angles as [|a rest IH]; simpl; [reflexivity|].
  unfold curve_step, curve_value.
  destruct (Rle_dec a 2.0).
  - intros _. simpl. rewrite curve_loop_bound. reflexivity.
  - destruct (Rle_dec a 5.5); [tauto|].
    intros Hr.
    destruct (Rle_dec a 8.0); [|destruct (Rle_dec a 12.0)];
      simpl; rewrite (IH Hr); reflexivity.
Qed.

Lemma reads_unbound_dec (angles : list R) :
  {reads_unbound angles} + {~ reads_unbound angles}.
Proof.
  induction angles as [|a rest IH]; simpl.
  - right. tauto.
  - destruct (Rle_dec a 2.0); [right; tauto|].
    destruct (Rle_dec a 5.5); [left; exact I | exact IH].
Qed.

(** Whatever the loop returns is the curve, index by index. *)
Lemma curve_loop_values (pg : R) (angles forces : list R) :
  curve_loop pg None angles = Ok forces ->
  forces = map (curve_value pg) angles.
Proof.
  intros H. destruct (reads_unbound_dec angles) as [Hr | Hr].
  - rewrite (curve_loop_unbound_raises pg angles Hr) in H. discriminate.
  - rewrite (curve_loop_unbound_ok pg angles Hr) in H. congruence.
Qed.

(** With valid parameters the load scaling is a positive real and the
    builder is the loop at [peak_grip], unless the scaling overflows. *)
Lemma create_realistic_tire_curve_valid
  (angles : list R) (dy_ref fz0 ls_exp vertical_load : R) :
  0 < fz0 -> 0 < vertical_load ->
  Rpower (vertical_load / fz0) ls_exp < float_overflow ->
  create_realistic_tire_curve angles dy_ref fz0 ls_exp vertical_load
  = curve_loop (dy_ref * Rpower (vertical_load / fz0) ls_exp) None angles.
Proof.
  intros Hf Hl Hr. unfold create_realistic_tire_curve.
  rewrite calculate_load_scaling_pos.
  - reflexivity.
  - apply Rdiv_lt_0_compat; assumption.
  - lra.
  - exact Hr.
Qed.

(** With valid parameters, what the builder returns the loop at
    [peak_grip] returned. *)
Lemma create_realistic_tire_curve_returned
  (angles forces : list R) (dy_ref fz0 ls_exp vertical_load : R) :
  0 < fz0 -> 0 < vertical_load ->
  create_realistic_tire_curve angles dy_ref fz0 ls_exp vertical_load
  = Ok forces ->
  curve_loop (dy_ref * Rpower (vertical_load / fz0) ls_exp) None angles
  = Ok forces.
Proof.
  intros Hf Hl. unfold create_realistic_tire_curve.
  rewrite calculate_load_scaling_pos_result
    by (try apply Rdiv_lt_0_compat; lra).
  unfold float_result.
  destruct (Rle_dec float_overflow (Rabs (Rpower (vertical_load / fz0) ls_exp)));
    [discriminate | intros H; exact H].
Qed.

(** The builder returns a series of the length of its input when the
    load scaling does not overflow and the first sample is in the
    linear region (every driver of the scripts starts its series at
    0). *)
Lemma create_realistic_tire_curve_from_linear
  (a : R) (rest : list R) (dy_ref fz0 ls_exp vertical_load : R) :
  0 < fz0 -> 0 < vertical_load ->
  Rpower (vertical_load / fz0) ls_exp < float_overflow ->
  a <= 2 ->
  exists forces,
    create_realistic_tire_curve (a :: rest) dy_ref fz0 ls_exp vertical_load
    = Ok forces
    /\ List.length forces = List.length (a :: rest).
Proof.
  intros Hf Hl Hr Ha.
  rewrite create_realistic_tire_curve_valid by assumption.
  rewrite curve_loop_unbound_ok.
  - eexists. split; [reflexivity|]. apply length_map.
  - simpl. destruct (Rle_dec a 2.0); [tauto | lra].
Qed.

(** C1 (failing input).  The builder has an error path
    of its own: on the strictly increasing series [3.0], with the valid
    parameters of the scripts (dy_ref = 1.26, fz0 = 2494, ls_exp =
    0.8119, vertical_load = 2494), the transition branch reads
    [cornering_stiffness] before any iteration has bound it and the call
    raises [UnboundLocalError] instead of returning a series of length
    1. *)
Theorem transition_before_linear_raises :
  create_realistic_tire_curve [3.0] 1.26 2494 0.8119 2494
  = Raise UnboundLocalError.
Proof.
  rewrite create_realistic_tire_curve_valid by valid_parameters.
  apply curve_loop_unbound_raises.
  simpl. pick_branch; try exact I.
Qed.

(** ** [calculate_load_scaling] *)

Lemma integral_Int_part (w : R) : integral w <-> w = IZR (Int_part w).
Proof.
  split.
  - intros [k ->]. f_equal. apply Int_part_spec. lra.
  - intros H. exists (Int_part w). exact H.
Qed.

Lemma not_integral_between (w : R) (k : Z) :
  IZR k < w < IZR (k + 1) -> ~ integral w.
Proof.
  intros [Hlo Hhi] [j ->].
  apply lt_IZR in Hlo. apply lt_IZR in Hhi. lia.
Qed.

Lemma Rpower_1_l (w : R) : Rpower 1 w = 1.
Proof. unfold Rpower. rewrite ln_1, Rmult_0_r. apply exp_0. Qed.

(** C2 (counterexample).  A negative load over a negative reference load
    with the non-integral exponent 0.8119 is not rejected: the quotient
    is 1 and the function returns 1.0. *)
Lemma load_scaling_accepts_negative_pair :
  (-2494 <= 0 /\ ~ integral 0.8119) /\ -2494 <= 0 /\
  calculate_load_scaling (-2494) (-2494) 0.8119 = Ok (PyFloat 1).
Proof.
  split; [split; [lra|] | split; [lra|]].
  - apply (not_integral_between _ 0). simpl. lra.
  - rewrite calculate_load_scaling_pos.
    + replace (-2494 / -2494) with 1 by lra.
      rewrite Rpower_1_l. reflexivity.
    + lra.
    + lra.
    + apply scaling_in_range; lra.
Qed.

Lemma pow2_1000_lt_overflow : 2 ^ 1000 < float_overflow.
Proof.
  unfold float_overflow. rewrite pow_IZR. apply IZR_lt. reflexivity.
Qed.

Lemma float_overflow_le_pow2_1025 : float_overflow <= 2 ^ 1025.
Proof.
  unfold float_overflow. rewrite pow_IZR. apply IZR_le.
  apply Z.lt_le_incl. reflexivity.
Qed.

Lemma pow2_pos (n : nat) : 0 < 2 ^ n.
Proof. apply pow_lt. lra. Qed.

Lemma ordinary_nonzero (x : R) : ordinary x -> x <> 0.
Proof.
  intros [Hlo _] ->. rewrite Rabs_R0 in Hlo.
  assert (H := Rinv_0_lt_compat _ (pow2_pos 1000)). lra.
Qed.

Lemma ordinary_in_range (x : R) : ordinary x -> Rabs x < float_overflow.
Proof. intros [_ Hhi]. assert (H := pow2_1000_lt_overflow). lra. Qed.

Lemma Rabs_powerRZ (x : R) (z : Z) :
  Rabs (powerRZ x z) = powerRZ (Rabs x) z.
Proof.
  destruct z as [|p|p]; simpl.
  - apply Rabs_R1.
  - symmetry. apply RPow_abs.
  - rewrite Rabs_inv. f_equal. symmetry. apply RPow_abs.
Qed.

(** The magnitude of a signed integral power. *)
Lemma Rabs_powerRZ_Rpower (x : R) (z : Z) :
  x <> 0 -> Rabs (powerRZ x z) = Rpower (Rabs x) (IZR z).
Proof.
  intros Hx. rewrite Rabs_powerRZ. apply powerRZ_Rpower.
  apply Rabs_pos_lt. exact Hx.
Qed.

(** C2 (amended).  [calculate_load_scaling] checks nothing itself and
    there is no domain error: what happens is what Python's [/] and
    [**] do on floats.
      - A zero reference load raises [ZeroDivisionError].
      - A zero load raises [ZeroDivisionError] with a negative
        exponent, and gives 1.0 with the exponent 0 and 0.0 with a
        positive exponent.
      - A negative quotient of ordinary magnitude comes back as a
        complex number when the exponent is not integral, without any
        exception, and as the signed integral power when it is.
      - A positive quotient of ordinary magnitude, which a positive load
        over a positive reference load gives and a negative load over a
        negative reference load as well, gives the real power
        [(load / fz0) ** ls_exp] when that is of ordinary magnitude, and
        raises [OverflowError] when the power is [2^1025] or more.
      - No other exception than these two is raised. *)
Theorem load_scaling_behaviour (load fz0 ls_exp : R) :
  let scale := calculate_load_scaling load fz0 ls_exp in
  (fz0 = 0 -> scale = Raise ZeroDivisionError)
  /\ (fz0 <> 0 -> load = 0 ->
      (ls_exp < 0 -> scale = Raise ZeroDivisionError)
      /\ (ls_exp = 0 -> scale = Ok (PyFloat 1))
      /\ (0 < ls_exp -> scale = Ok (PyFloat 0)))
  /\ (fz0 <> 0 -> load / fz0 < 0 -> ordinary_power (load / fz0) ls_exp ->
      (~ integral ls_exp -> exists re im, scale = Ok (PyComplex re im))
      /\ (integral ls_exp ->
          scale = Ok (PyFloat (powerRZ (load / fz0) (Int_part ls_exp)))))
  /\ (fz0 <> 0 -> 0 < load / fz0 -> ordinary (load / fz0) ->
      Rabs ls_exp <= 2 ^ 20 ->
      (ordinary (Rpower (load / fz0) ls_exp) ->
       scale = Ok (PyFloat (Rpower (load / fz0) ls_exp)))
      /\ (2 ^ 1025 <= Rpower (load / fz0) ls_exp ->
          scale = Raise OverflowError))
  /\ (forall err : py_error,
        scale = Raise err -> err = ZeroDivisionError \/ err = OverflowError).
Proof.
  intros scale. subst scale.
  split; [|split; [|split; [|split]]].
  - intros ->. unfold calculate_load_scaling, py_truediv.
    destruct (Req_dec_T 0 0); [reflexivity | lra].
  - intros Hz ->. unfold calculate_load_scaling.
    rewrite py_truediv_nonzero by exact Hz. simpl.
    replace (0 / fz0) with 0 by (unfold Rdiv; ring).
    unfold py_float_pow.
    split; [|split]; intros He.
    + destruct (Req_dec_T ls_exp 0); [lra|].
      destruct (Req_dec_T 0 0); [|lra].
      destruct (Rlt_dec ls_exp 0); [reflexivity | lra].
    + destruct (Req_dec_T ls_exp 0); [reflexivity | lra].
    + destruct (Req_dec_T ls_exp 0); [lra|].
      destruct (Req_dec_T 0 0); [|lra].
      destruct (Rlt_dec ls_exp 0); [lra | reflexivity].
  - intros Hz Hq (Hord & _ & Hpow). unfold calculate_load_scaling.
    rewrite py_truediv_nonzero by exact Hz. simpl.
    set (q := load / fz0) in *.
    assert (Hin := ordinary_in_range _ Hpow).
    rewrite Rabs_Rpower in Hin.
    assert (Habs : Rabs q = - q) by (apply Rabs_left; exact Hq).
    unfold py_float_pow. split.
    + intros Hni.
      destruct (Req_dec_T ls_exp 0) as [-> | _].
      { exfalso. apply Hni. exists 0%Z. reflexivity. }
      destruct (Req_dec_T q 0); [lra|].
      destruct (Rlt_dec q 0); [|lra].
      destruct (Req_dec_T ls_exp (IZR (Int_part ls_exp))) as [Hi | _].
      { exfalso. apply Hni. apply integral_Int_part. exact Hi. }
      cbv zeta. rewrite <- Habs.
      destruct (Rle_dec float_overflow (Rpower (Rabs q) ls_exp)); [lra|].
      eexists. eexists. reflexivity.
    + intros Hi. apply integral_Int_part in Hi.
      destruct (Req_dec_T ls_exp 0) as [He | _].
      { rewrite He. replace (Int_part 0) with 0%Z; [reflexivity|].
        apply Int_part_spec. lra. }
      destruct (Req_dec_T q 0); [lra|].
      destruct (Rlt_dec q 0); [|lra].
      destruct (Req_dec_T ls_exp (IZR (Int_part ls_exp))); [|contradiction].
      apply float_result_in_range.
      rewrite Rabs_powerRZ_Rpower by lra.
      rewrite <- Hi. exact Hin.
  - intros Hz Hq Hord He.
    rewrite calculate_load_scaling_pos_result by assumption. split.
    + intros Hpow. apply float_result_in_range.
      apply ordinary_in_range. exact Hpow.
    + intros Hbig. apply float_result_overflow.
      rewrite Rabs_Rpower.
      assert (H := float_overflow_le_pow2_1025). lra.
  - intros err. unfold calculate_load_scaling, py_truediv.
    destruct (Req_dec_T fz0 0).
    { simpl. intros H. injection H as <-. left. reflexivity. }
    simpl. unfold py_float_pow, float_result.
    repeat match goal with
    | |- context [if ?c then _ else _] => destruct c
    end; cbv zeta;
    repeat match goal with
    | |- context [if ?c then _ else _] => destruct c
    end;
    intros H; try discriminate; injection H as <-; auto.
Qed.

Lemma ordinary_moderate (x : R) :
  / 1000000 <= Rabs x <= 1000000 -> ordinary x.
Proof.
  intros [Hlo Hhi].
  assert (Hp : 1000000 <= 2 ^ 1000).
  { apply Rle_trans with (2 ^ 20); [lra|].
    apply Rle_pow; [lra | lia]. }
  split; [|lra].
  apply Rle_trans with (/ 1000000); [|exact Hlo].
  apply Rinv_le_contravar; lra.
Qed.

(** [1.6^2000] is beyond the range of the floats. *)
Lemma overflowing_power : 2 ^ 1025 <= Rpower (4000 / 2494) 2000.
Proof.
  replace 2000 with (INR 2000)
    by (rewrite INR_IZR_INZ; f_equal).
  rewrite Rpower_pow by lra.
  change 2000%nat with (20 * 100)%nat. rewrite pow_mult.
  apply Rle_trans with ((2 ^ 13) ^ 100).
  - rewrite <- pow_mult. apply Rle_pow; [lra | lia].
  - apply pow_incr. split; [apply Rlt_le, pow2_pos|].
    apply Rle_trans with ((16 / 10) ^ 20); [lra|].
    apply pow_incr. lra.
Qed.

Lemma load_scaling_behaviour_at_reference :
  calculate_load_scaling 2494 2494 0.8119 = Ok (PyFloat 1)
  /\ calculate_load_scaling 4000 2494 2000 = Raise OverflowError.
Proof.
  split.
  - destruct (load_scaling_behaviour 2494 2494 0.8119)
      as (_ & _ & _ & H & _).
    destruct H as [H _]; [lra | lra | apply ordinary_moderate | |].
    + rewrite Rabs_right by lra. lra.
    + rewrite Rabs_right by lra. lra.
    + replace (2494 / 2494) with 1 in H by lra.
      rewrite Rpower_1_l in H. apply H.
      apply ordinary_moderate. rewrite Rabs_R1. lra.
  - destruct (load_scaling_behaviour 4000 2494 2000)
      as (_ & _ & _ & H & _).
    destruct H as [_ H]; [lra | lra | apply ordinary_moderate | |].
    + rewrite Rabs_right by lra. lra.
    + rewrite Rabs_right by lra. lra.
    + apply H. exact overflowing_power.
Defined.

(** ** The falloff segments *)

Lemma moderate_falloff_lerp (pg a : R) :
  moderate_falloff pg a = spec_moderate_falloff pg a.
Proof.
  unfold moderate_falloff, spec_moderate_falloff, lerp. decimals. field.
Qed.

Lemma steep_falloff_lerp (pg a : R) :
  steep_falloff pg a = spec_steep_falloff pg a.
Proof.
  unfold steep_falloff, spec_steep_falloff, lerp.
  rewrite py_minR_Rmin.
  replace 1.0 with 1 by lra.
  generalize (Rmin ((a - 12.0) / 8.0) 1). intros m. ring.
Qed.

Lemma steep_falloff_floor (pg a : R) :
  20 <= a -> steep_falloff pg a = 0.60 * 0.75 * 0.95 * pg.
Proof.
  intros Ha. unfold steep_falloff, py_minR.
  destruct (Rlt_dec 1.0 ((a - 12.0) / 8.0)) as [_ | Hn].
  - decimals. field.
  - assert (Hp : (a - 12.0) / 8.0 = 1) by lra.
    rewrite Hp. decimals. field.
Qed.

(** C4.  With valid parameters and [peak_grip = dy_ref * (vertical_load
    / fz0) ** ls_exp], wherever the builder returns a series: the force
    at an angle in (8, 12] is the linear interpolation from
    [peak_grip * 0.95] at 8 degrees to 0.75 of it at 12 degrees; the
    force at an angle above 12 is the linear interpolation from that
    value towards 0.60 of it, with progress [(angle - 12) / 8] clamped
    to 1; and from 20 degrees on it is the constant
    [0.60 * 0.75 * 0.95 * peak_grip]. *)
Theorem falloff_segments_interpolate
  (angles forces : list R) (dy_ref fz0 ls_exp vertical_load : R)
  (i : nat) (angle : R) :
  0 < dy_ref -> 0 < fz0 -> 0 < vertical_load ->
  create_realistic_tire_curve angles dy_ref fz0 ls_exp vertical_load
  = Ok forces ->
  nth_error angles i = Some angle ->
  let peak_grip := dy_ref * Rpower (vertical_load / fz0) ls_exp in
  (8 < angle <= 12 ->
     nth_error forces i = Some (spec_moderate_falloff peak_grip angle))
  /\ (12 < angle ->
     nth_error forces i = Some (spec_steep_falloff peak_grip angle))
  /\ (20 <= angle ->
     nth_error forces i = Some (0.60 * 0.75 * 0.95 * peak_grip)).
Proof.
  intros Hd Hf Hl Hbuild Hnth peak_grip.
  apply create_realistic_tire_curve_returned in Hbuild; [|assumption..].
  apply curve_loop_values in Hbuild. subst forces.
  fold peak_grip.
  rewrite nth_error_map, Hnth. simpl.
  repeat split; intros Ha; f_equal.
  - rewrite curve_value_moderate by exact Ha. apply moderate_falloff_lerp.
  - rewrite curve_value_steep by exact Ha. apply steep_falloff_lerp.
  - rewrite curve_value_steep by lra. apply steep_falloff_floor. exact Ha.
Qed.

Lemma falloff_segments_at_25_degrees :
  exists forces,
    create_realistic_tire_curve [0; 10; 25] 1.26 2494 0.8119 2494
    = Ok forces
    /\ nth_error forces 2
       = Some (0.60 * 0.75 * 0.95
               * (1.26 * Rpower (2494 / 2494) 0.8119)).
Proof.
  assert (Hbuild :
    create_realistic_tire_curve [0; 10; 25] 1.26 2494 0.8119 2494
    = Ok (map (curve_value (1.26 * Rpower (2494 / 2494) 0.8119))
              [0; 10; 25])).
  { rewrite create_realistic_tire_curve_valid by valid_parameters.
    apply curve_loop_unbound_ok. simpl. pick_branch; tauto. }
  eexists. split; [exact Hbuild|].
  refine (proj2 (proj2
    (falloff_segments_interpolate [0; 10; 25] _ 1.26 2494 0.8119 2494
       2%nat 25 _ _ _ Hbuild eq_refl)) _); lra.
Defined.

(** ** Segment boundaries *)

(** Two functions that are continuous at [b] and agree there glue to a
    function that is continuous at [b]. *)
Lemma continuity_pt_glue (f g h : R -> R) (b d : R) :
  0 < d ->
  continuity_pt f b -> continuity_pt g b -> f b = g b ->
  (forall y, b - d < y <= b -> h y = f y) ->
  (forall y, b < y < b + d -> h y = g y) ->
  continuity_pt h b.
Proof.
  intros Hd Hf Hg Hfg Hleft Hright eps Heps.
  destruct (Hf eps Heps) as (af & Haf & Hf').
  destruct (Hg eps Heps) as (ag & Hag & Hg').
  exists (Rmin d (Rmin af ag)). split.
  - apply Rmin_pos; [exact Hd | apply Rmin_pos; assumption].
  - intros y [[_ Hne] Hdist].
    simpl in *. unfold R_dist in *.
    assert (Hyd : Rabs (y - b) < d).
    { eapply Rlt_le_trans; [exact Hdist | apply Rmin_l]. }
    assert (Hyf : Rabs (y - b) < af).
    { eapply Rlt_le_trans; [exact Hdist|].
      eapply Rle_trans; [apply Rmin_r | apply Rmin_l]. }
    assert (Hyg : Rabs (y - b) < ag).
    { eapply Rlt_le_trans; [exact Hdist|].
      eapply Rle_trans; [apply Rmin_r | apply Rmin_r]. }
    apply Rabs_def2 in Hyd.
    rewrite (Hleft b) by lra.
    destruct (Rle_dec y b) as [Hle | Hgt].
    + rewrite (Hleft y) by lra. apply Hf'.
      split; [split; [exact I | exact Hne] | exact Hyf].
    + rewrite (Hright y) by lra. rewrite Hfg. apply Hg'.
      split; [split; [exact I | exact Hne] | exact Hyg].
Qed.

Lemma linear_region_continuous (pg x : R) :
  continuity_pt (linear_region pg) x.
Proof. unfold linear_region, cornering_stiffness_of, radians. reg. Qed.

Lemma transition_region_continuous (pg cs x : R) :
  continuity_pt (transition_region pg cs) x.
Proof. unfold transition_region, radians. reg. Qed.

Lemma plateau_region_continuous (pg x : R) :
  continuity_pt (plateau_region pg) x.
Proof. unfold plateau_region. reg. Qed.

Lemma moderate_falloff_continuous (pg x : R) :
  continuity_pt (moderate_falloff pg) x.
Proof. unfold moderate_falloff. reg. Qed.

(** The steep falloff before its progress is clamped. *)
Lemma steep_falloff_unclamped (pg a : R) :
  a <= 20 ->
  steep_falloff pg a
  = pg * 0.95 * 0.75 * (0.60 + (1 - 0.60) * (1 - (a - 12.0) / 8.0)).
Proof.
  intros Ha. unfold steep_falloff, py_minR.
  destruct (Rlt_dec 1.0 ((a - 12.0) / 8.0)); [lra | reflexivity].
Qed.

Lemma segment_values_at_boundaries (peak_grip : R) :
  transition_region peak_grip (cornering_stiffness_of peak_grip) 2.0
  = linear_region peak_grip 2.0
  /\ transition_region peak_grip (cornering_stiffness_of peak_grip) 5.5
     = peak_grip
  /\ plateau_region peak_grip 5.5 = peak_grip
  /\ plateau_region peak_grip 8.0 = peak_grip * 0.95
  /\ moderate_falloff peak_grip 8.0 = peak_grip * 0.95
  /\ moderate_falloff peak_grip 12.0 = 0.75 * peak_grip * 0.95
  /\ steep_falloff peak_grip 12.0 = 0.75 * peak_grip * 0.95.
Proof.
  assert (Hr := radians_6_neq_0).
  unfold linear_region, transition_region, plateau_region,
    moderate_falloff, steep_falloff, cornering_stiffness_of, py_minR.
  repeat split;
    try (destruct (Rlt_dec 1.0 ((12.0 - 12.0) / 8.0)); [lra|]);
    revert Hr; decimals; intros Hr; field; exact Hr.
Qed.

(** The curve is continuous at each of the four thresholds. *)
Lemma curve_value_continuous_at_boundaries (pg : R) :
  continuity_pt (curve_value pg) 2.0
  /\ continuity_pt (curve_value pg) 5.5
  /\ continuity_pt (curve_value pg) 8.0
  /\ continuity_pt (curve_value pg) 12.0.
Proof.
  destruct (segment_values_at_boundaries pg)
    as (H2 & H55a & H55b & H8a & H8b & H12a & H12b).
  repeat split.
  - apply (continuity_pt_glue (linear_region pg)
             (transition_region pg (cornering_stiffness_of pg)) _ _ 1).
    + lra.
    + apply linear_region_continuous.
    + apply transition_region_continuous.
    + symmetry. exact H2.
    + intros y Hy. apply curve_value_linear. lra.
    + intros y Hy. apply curve_value_transition. lra.
  - apply (continuity_pt_glue
             (transition_region pg (cornering_stiffness_of pg))
             (plateau_region pg) _ _ 1).
    + lra.
    + apply transition_region_continuous.
    + apply plateau_region_continuous.
    + rewrite H55a, H55b. reflexivity.
    + intros y Hy. apply curve_value_transition. lra.
    + intros y Hy. apply curve_value_plateau. lra.
  - apply (continuity_pt_glue (plateau_region pg)
             (moderate_falloff pg) _ _ 1).
    + lra.
    + apply plateau_region_continuous.
    + apply moderate_falloff_continuous.
    + rewrite H8a, H8b. reflexivity.
    + intros y Hy. apply curve_value_plateau. lra.
    + intros y Hy. apply curve_value_moderate. lra.
  - apply (continuity_pt_glue (moderate_falloff pg)
             (fun a => pg * 0.95 * 0.75
                       * (0.60 + (1 - 0.60) * (1 - (a - 12.0) / 8.0)))
             _ _ 1).
    + lra.
    + apply moderate_falloff_continuous.
    + reg.
    + rewrite H12a, <- H12b. apply steep_falloff_unclamped. lra.
    + intros y Hy. apply curve_value_moderate. lra.
    + intros y Hy. rewrite curve_value_steep by lra.
      apply steep_falloff_unclamped. lra.
Qed.

(** C10.  The five formulas agree at the four internal thresholds: with
    the stiffness [peak_grip / radians 6.0], the linear formula at 2.0
    is the transition formula at progress 0; the transition formula at
    5.5 (progress 1) and the plateau formula at 5.5 are both
    [peak_grip]; the plateau formula at 8.0 and the moderate falloff at
    progress 0 are both [peak_grip * 0.95]; the moderate falloff at 12.0
    and the steep falloff at progress 0 are both
    [0.75 * peak_grip * 0.95].  Hence the curve is continuous at 2.0,
    5.5, 8.0 and 12.0. *)
Theorem segments_agree_at_boundaries (peak_grip : R) :
  let stiffness := cornering_stiffness_of peak_grip in
  (linear_region peak_grip 2.0 = stiffness * radians 2.0
   /\ transition_region peak_grip stiffness 2.0 = linear_region peak_grip 2.0
   /\ transition_region peak_grip stiffness 5.5 = peak_grip
   /\ plateau_region peak_grip 5.5 = peak_grip
   /\ plateau_region peak_grip 8.0 = peak_grip * 0.95
   /\ moderate_falloff peak_grip 8.0 = peak_grip * 0.95
   /\ moderate_falloff peak_grip 12.0 = 0.75 * peak_grip * 0.95
   /\ steep_falloff peak_grip 12.0 = 0.75 * peak_grip * 0.95)
  /\ (continuity_pt (curve_value peak_grip) 2.0
      /\ continuity_pt (curve_value peak_grip) 5.5
      /\ continuity_pt (curve_value peak_grip) 8.0
      /\ continuity_pt (curve_value peak_grip) 12.0).
Proof.
  intros stiffness. subst stiffness. split.
  - split; [reflexivity | apply segment_values_at_boundaries].
  - apply curve_value_continuous_at_boundaries.
Qed.

(** ** The chatter overlay *)

Section ChatterFacts.

Variables chatter_start chatter_intensity chatter_frequency : R.

Local Abbreviation sample := (chatter_sample chatter_start chatter_intensity
                                   chatter_frequency).
Local Abbreviation overlay := (chatter_loop chatter_start chatter_intensity
                                  chatter_frequency).

Lemma chatter_sample_below (angle base_force : R) :
  angle < chatter_start -> sample angle base_force = Fin base_force.
Proof.
  intros Hlt. unfold chatter_sample.
  destruct (Rge_dec angle chatter_start); [lra | reflexivity].
Qed.

(** On arrays of one length the loop never reads past the end: it
    returns the sample of every (angle, base force) pair. *)
Lemma chatter_loop_same_length (angles base : list R) :
  List.length angles = List.length base ->
  overlay angles base
  = Ok (map (fun p => sample (fst p) (snd p)) (combine angles base)).
Proof.
  revert base.
  induction angles as [|a angles IH]; intros [|b base] Hlen;
    simpl in Hlen; try discriminate; [reflexivity|].
  simpl. rewrite IH by (injection Hlen; auto). reflexivity.
Qed.

Lemma nth_error_combine (angles base : list R) (i : nat) (a b : R) :
  nth_error angles i = Some a -> nth_error base i = Some b ->
  nth_error (combine angles base) i = Some (a, b).
Proof.
  revert angles base.
  induction i as [|i IH]; intros [|a' angles] [|b' base] Ha Hb;
    simpl in *; try discriminate.
  - congruence.
  - apply IH; assumption.
Qed.

Lemma chatter_loop_nth (angles base : list R) (i : nat) (a b : R) :
  List.length angles = List.length base ->
  nth_error angles i = Some a -> nth_error base i = Some b ->
  exists out,
    overlay angles base = Ok out
    /\ List.length out = List.length base
    /\ nth_error out i = Some (sample a b).
Proof.
  intros Hlen Ha Hb.
  rewrite (chatter_loop_same_length angles base Hlen).
  eexists. split; [reflexivity|]. split.
  - rewrite length_map, length_combine, Hlen. apply Nat.min_id.
  - rewrite nth_error_map, (nth_error_combine angles base i a b Ha Hb).
    reflexivity.
Qed.

(** Away from [chatter_start = 20.0] the progress is finite, so is the
    sample, and the second argument of [max] bounds it from below. *)
Lemma chatter_sample_floor (angle base_force : R) :
  chatter_start <> 20 ->
  0 <= base_force ->
  exists force,
    sample angle base_force = Fin force /\ 0.1 * base_force <= force.
Proof.
  intros Hs Hb. unfold chatter_sample.
  destruct (Rge_dec angle chatter_start).
  - unfold np_div.
    destruct (Req_dec_T (20.0 - chatter_start) 0); [lra|].
    unfold py_min. cbn [np_ltb].
    match goal with
    | |- context [if (if ?c then true else false) then Fin ?x else Fin ?y] =>
        replace (if (if c then true else false) then Fin x else Fin y)
          with (Fin (if c then x else y)) by (destruct c; reflexivity)
    end.
    cbn [np_mul np_add]. unfold py_max. cbn [np_ltb].
    match goal with
    | |- context [Rlt_dec ?x ?y] => destruct (Rlt_dec x y) as [Hlt | Hge]
    end.
    + eexists. split; [reflexivity | lra].
    + eexists. split; [reflexivity | lra].
  - eexists. split; [reflexivity | lra].
Qed.

End ChatterFacts.

(** The floor of the overlay holds for every configuration whose start
    angle is not 20.0. *)
Lemma chatter_floor_unless_start_20
  (chatter_start chatter_intensity chatter_frequency : R)
  (angles base : list R) (i : nat) (a b : R) :
  chatter_start <> 20 ->
  List.length angles = List.length base ->
  nth_error angles i = Some a -> nth_error base i = Some b -> 0 <= b ->
  exists out force,
    chatter_loop chatter_start chatter_intensity chatter_frequency
                 angles base = Ok out
    /\ nth_error out i = Some (Fin force) /\ 0.1 * b <= force.
Proof.
  intros Hs Hlen Ha Hb Hpos.
  destruct (chatter_loop_nth chatter_start chatter_intensity
              chatter_frequency angles base i a b Hlen Ha Hb)
    as (out & Hout & _ & Hnth).
  destruct (chatter_sample_floor chatter_start chatter_intensity
              chatter_frequency a b Hs Hpos) as (force & Hf & Hle).
  exists out, force. rewrite <- Hf. auto.
Qed.

(** C5 (failing input).  With [chatter_start = 20.0],
    inside the documented bounds, a sample at exactly 20.0 degrees has
    progress [0.0 / 0.0]: NumPy returns NaN, [min] and [max] keep a NaN
    first argument, and the stored force is NaN, which is not at least
    a tenth of the (positive) base force.  The parameters are those of
    the scripts; the series is their last sample. *)
Theorem chatter_start_20_stores_nan :
  create_realistic_tire_curve [20.0] 1.26 2494 0.8119 2494
  = Ok [steep_falloff (1.26 * Rpower (2494 / 2494) 0.8119) 20.0]
  /\ create_chatter_tire_curve 20.0 0.15 2.0 [20.0] 1.26 2494 0.8119 2494
     = Ok [NaN]
  /\ np_geb NaN
       (0.1 * steep_falloff (1.26 * Rpower (2494 / 2494) 0.8119) 20.0)
     = false.
Proof.
  assert (Hbase :
    create_realistic_tire_curve [20.0] 1.26 2494 0.8119 2494
    = Ok [steep_falloff (1.26 * Rpower (2494 / 2494) 0.8119) 20.0]).
  { rewrite create_realistic_tire_curve_valid by valid_parameters.
    rewrite curve_loop_unbound_ok by (simpl; pick_branch; tauto).
    simpl. rewrite curve_value_steep by lra. reflexivity. }
  split; [exact Hbase|]. split; [|reflexivity].
  unfold create_chatter_tire_curve. rewrite Hbase. simpl.
  unfold chatter_sample.
  destruct (Rge_dec 20.0 20.0); [|lra].
  unfold np_div.
  destruct (Req_dec_T (20.0 - 20.0) 0); [|lra].
  unfold np_sign.
  destruct (Rlt_dec 0 (20.0 - 20.0)); [lra|].
  destruct (Rlt_dec (20.0 - 20.0) 0); [lra|].
  reflexivity.
Qed.

(** C6.  On a base series of the length of the angle series the overlay
    returns a series of that length, and at every index whose angle is
    strictly below [chatter_start] the stored value is the base force
    of that index, unchanged. *)
Theorem chatter_below_start_unchanged
  (chatter_start chatter_intensity chatter_frequency : R)
  (angles base : list R) :
  List.length angles = List.length base ->
  exists out,
    chatter_loop chatter_start chatter_intensity chatter_frequency
                 angles base = Ok out
    /\ List.length out = List.length base
    /\ forall (i : nat) (a b : R),
         nth_error angles i = Some a -> nth_error base i = Some b ->
         a < chatter_start ->
         nth_error out i = Some (Fin b).
Proof.
  intros Hlen.
  rewrite (chatter_loop_same_length _ _ _ angles base Hlen).
  eexists. split; [reflexivity|]. split.
  - rewrite length_map, length_combine, Hlen. apply Nat.min_id.
  - intros i a b Ha Hb Hlt.
    rewrite nth_error_map, (nth_error_combine angles base i a b Ha Hb).
    simpl. f_equal. apply chatter_sample_below. exact Hlt.
Qed.

Lemma chatter_below_start_unchanged_at_10 :
  exists out,
    chatter_loop 10.0 0.15 2.0 [0; 5; 12] [0; 1.2; 0.9] = Ok out
    /\ nth_error out 1 = Some (Fin 1.2).
Proof.
  destruct (chatter_below_start_unchanged 10.0 0.15 2.0
              [0; 5; 12] [0; 1.2; 0.9] eq_refl) as (out & Hout & _ & Hnth).
  exists out. split; [exact Hout|].
  apply (Hnth 1%nat 5 1.2); [reflexivity | reflexivity | lra].
Defined.

(** ** Normalisation *)

Lemma Rmax_div (a b m : R) : 0 < m -> Rmax (a / m) (b / m) = Rmax a b / m.
Proof.
  intros Hm. assert (Hi : 0 < / m) by (apply Rinv_0_lt_compat; exact Hm).
  unfold Rmax, Rdiv.
  destruct (Rle_dec (a * / m) (b * / m)) as [H1 | H1],
           (Rle_dec a b) as [H2 | H2]; try reflexivity.
  - exfalso. apply H2. apply (Rmult_le_reg_r (/ m)); assumption.
  - exfalso. apply H1. apply Rmult_le_compat_r; lra.
Qed.

Lemma fold_left_Rmax_div (rest : list R) (x m : R) :
  0 < m ->
  fold_left Rmax (map (fun f => f / m) rest) (x / m)
  = fold_left Rmax rest x / m.
Proof.
  intros Hm. revert x.
  induction rest as [|y rest IH]; intros x; simpl; [reflexivity|].
  rewrite Rmax_div by exact Hm. apply IH.
Qed.

Lemma fold_left_Rmax_ge_init (rest : list R) (x : R) :
  x <= fold_left Rmax rest x.
Proof.
  revert x. induction rest as [|y rest IH]; intros x; simpl; [lra|].
  apply Rle_trans with (Rmax x y); [apply Rmax_l | apply IH].
Qed.

(** [np.max] bounds every entry. *)
Lemma np_max_upper_bound (forces : list R) (peak : R) (i : nat) (f : R) :
  np_max forces = Ok peak -> nth_error forces i = Some f -> f <= peak.
Proof.
  destruct forces as [|x rest]; simpl; [discriminate|].
  intros Hp. injection Hp as <-. revert x i.
  induction rest as [|y rest IH]; intros x i Hn.
  - destruct i as [|[|i]]; simpl in Hn; try discriminate.
    injection Hn as ->. simpl. lra.
  - destruct i as [|i]; simpl in Hn.
    + injection Hn as ->. apply fold_left_Rmax_ge_init.
    + simpl. destruct i as [|i]; simpl in Hn.
      * injection Hn as ->.
        apply Rle_trans with (Rmax x f);
          [apply Rmax_r | apply fold_left_Rmax_ge_init].
      * apply (IH (Rmax x y) (S i)). simpl. exact Hn.
Qed.

Lemma fold_left_Rmax_in (rest : list R) (x : R) :
  In (fold_left Rmax rest x) (x :: rest).
Proof.
  revert x. induction rest as [|y rest IH]; intros x; simpl; [auto|].
  destruct (IH (Rmax x y)) as [H | H].
  - unfold Rmax in H at 1. destruct (Rle_dec x y); auto.
  - auto.
Qed.

(** [np.max] is the entry that bounds all the others. *)
Lemma np_max_is (forces : list R) (peak : R) :
  In peak forces -> (forall f, In f forces -> f <= peak) ->
  np_max forces = Ok peak.
Proof.
  intros Hin Hub. destruct forces as [|x rest]; [contradiction|].
  simpl. f_equal. apply Rle_antisym.
  - apply Hub. apply fold_left_Rmax_in.
  - apply In_nth_error in Hin. destruct Hin as [i Hi].
    apply (np_max_upper_bound (x :: rest) _ i peak eq_refl Hi).
Qed.

Lemma normalize_forces_peak (forces : list R) (peak : R) :
  np_max forces = Ok peak ->
  normalize_forces forces = Ok (map (fun f => np_div f peak) forces).
Proof. intros Hp. unfold normalize_forces. rewrite Hp. reflexivity. Qed.

Lemma np_max_two_zeros : np_max [0; 0] = Ok 0.
Proof.
  simpl. f_equal. unfold Rmax. destruct (Rle_dec 0 0); reflexivity.
Qed.

(** C3 (counterexample).  On the all-zero series [0.0, 0.0] the
    normalisation does not fail: it returns the series [NaN, NaN]. *)
Lemma normalize_all_zero_returns_nan :
  np_max [0; 0] = Ok 0 /\ normalize_forces [0; 0] = Ok [NaN; NaN].
Proof.
  assert (Hp := np_max_two_zeros).
  split; [exact Hp|].
  rewrite (normalize_forces_peak _ _ Hp). simpl.
  unfold np_div, np_sign.
  destruct (Req_dec_T 0 0); [|lra].
  destruct (Rlt_dec 0 0); [lra | reflexivity].
Qed.

(** C3 (amended).  The normalisation does not fail on a series whose
    maximum is <= 0: it returns a series of the same length, and on an
    all-zero series every entry of it is NaN. *)
Theorem normalize_nonpositive_peak_returns (forces : list R) (peak : R) :
  is_maximum peak forces -> peak <= 0 ->
  exists out,
    normalize_forces forces = Ok out
    /\ List.length out = List.length forces
    /\ ((forall f, In f forces -> f = 0) ->
        forall x, In x out -> x = NaN).
Proof.
  intros Hmax Hle.
  assert (Hp : np_max forces = Ok peak)
    by (apply np_max_is; apply Hmax).
  rewrite (normalize_forces_peak _ _ Hp).
  eexists. split; [reflexivity|]. split; [apply length_map|].
  intros Hzero x Hin. apply in_map_iff in Hin.
  destruct Hin as (f & <- & Hf).
  assert (Hpeak : peak = 0) by (apply Hzero; apply Hmax).
  rewrite (Hzero f Hf), Hpeak.
  unfold np_div, np_sign.
  destruct (Req_dec_T 0 0); [|lra].
  destruct (Rlt_dec 0 0); [lra | reflexivity].
Qed.

Lemma normalize_nonpositive_peak_at_zeros :
  exists out,
    normalize_forces [0; 0] = Ok out
    /\ List.length out = 2%nat
    /\ forall x, In x out -> x = NaN.
Proof.
  destruct (normalize_nonpositive_peak_returns [0; 0] 0) as
    (out & Hout & Hlen & Hnan).
  - split; [left; reflexivity|].
    intros x [<- | [<- | []]]; apply Rle_refl.
  - apply Rle_refl.
  - exists out. split; [exact Hout|]. split; [exact Hlen|].
    apply Hnan. intros f [<- | [<- | []]]; reflexivity.
Defined.

(** C7.  On a series whose maximum is strictly positive the
    normalisation returns a series of the same length, every entry of
    which is the finite quotient of the input entry by the input
    maximum; the maximum of the returned series is 1: the value 1 is
    one of its entries and no entry exceeds it. *)
Theorem normalize_positive_peak (forces : list R) (peak : R) :
  is_maximum peak forces -> 0 < peak ->
  exists out : list R,
    normalize_forces forces = Ok (map Fin out)
    /\ List.length out = List.length forces
    /\ (forall (i : nat) (f : R),
          nth_error forces i = Some f ->
          nth_error out i = Some (f / peak))
    /\ is_maximum 1 out.
Proof.
  intros [Hin Hub] Hpos.
  assert (Hp : np_max forces = Ok peak) by (apply np_max_is; assumption).
  exists (map (fun f => f / peak) forces).
  split; [|split; [|split; [|split]]].
  - rewrite (normalize_forces_peak _ _ Hp), map_map. f_equal.
    apply map_ext. intros f. unfold np_div.
    destruct (Req_dec_T peak 0); [lra | reflexivity].
  - apply length_map.
  - intros i f Hi. rewrite nth_error_map, Hi. reflexivity.
  - apply in_map_iff. exists peak. split; [field; lra | exact Hin].
  - intros x Hx. apply in_map_iff in Hx. destruct Hx as (f & <- & Hf).
    apply (Rmult_le_reg_r peak); [exact Hpos|].
    replace (f / peak * peak) with f by (field; lra).
    rewrite Rmult_1_l. apply Hub. exact Hf.
Qed.

Lemma normalize_positive_peak_example :
  exists out : list R,
    normalize_forces [1; 4; 2] = Ok (map Fin out)
    /\ nth_error out 0 = Some (1 / 4)
    /\ nth_error out 1 = Some (4 / 4)
    /\ nth_error out 2 = Some (2 / 4)
    /\ is_maximum 1 out.
Proof.
  destruct (normalize_positive_peak [1; 4; 2] 4)
    as (out & Hout & _ & Hnth & Hmax).
  - split; [right; left; reflexivity|].
    intros x [<- | [<- | [<- | []]]]; lra.
  - lra.
  - exists out. split; [exact Hout|].
    split; [apply (Hnth 0%nat); reflexivity|].
    split; [apply (Hnth 1%nat); reflexivity|].
    split; [apply (Hnth 2%nat); reflexivity | exact Hmax].
Defined.

(** The builder keeps the length of its input. *)
Lemma create_realistic_tire_curve_length
  (angles forces : list R) (dy_ref fz0 ls_exp vertical_load : R) :
  create_realistic_tire_curve angles dy_ref fz0 ls_exp vertical_load
  = Ok forces ->
  List.length forces = List.length angles.
Proof.
  unfold create_realistic_tire_curve.
  destruct (calculate_load_scaling vertical_load fz0 ls_exp)
    as [[s | re im] | e]; simpl; [| |discriminate].
  - intros H. apply curve_loop_values in H. subst forces.
    apply length_map.
  - unfold complex_peak_grip. destruct angles as [|a rest].
    + intros H. injection H as <-. reflexivity.
    + destruct (Rle_dec a 2.0); [discriminate|].
      destruct (Rle_dec a 5.5); discriminate.
Qed.

(** The same frame property for [create_chatter_tire_curve], whose base
    series is the one the builder returns. *)
Lemma create_chatter_tire_curve_below_start
  (chatter_start chatter_intensity chatter_frequency : R)
  (angles base : list R) (dy_ref fz0 ls_exp vertical_load : R) :
  create_realistic_tire_curve angles dy_ref fz0 ls_exp vertical_load
  = Ok base ->
  exists out,
    create_chatter_tire_curve chatter_start chatter_intensity
      chatter_frequency angles dy_ref fz0 ls_exp vertical_load = Ok out
    /\ List.length out = List.length angles
    /\ forall (i : nat) (a b : R),
         nth_error angles i = Some a -> nth_error base i = Some b ->
         a < chatter_start ->
         nth_error out i = Some (Fin b).
Proof.
  intros Hbase.
  assert (Hlen := create_realistic_tire_curve_length _ _ _ _ _ _ Hbase).
  unfold create_chatter_tire_curve. rewrite Hbase. simpl.
  rewrite (chatter_loop_same_length _ _ _ angles base (eq_sym Hlen)).
  eexists. split; [reflexivity|]. split.
  - rewrite length_map, length_combine, Hlen. apply Nat.min_id.
  - intros i a b Ha Hb Hlt.
    rewrite nth_error_map, (nth_error_combine angles base i a b Ha Hb).
    simpl. f_equal. apply chatter_sample_below. exact Hlt.
Qed.

(** ** The brush model *)

Section BrushFacts.

Variables dy_ref friction_limit_angle falloff_level falloff_speed : R.

Local Abbreviation brush :=
  (ac_tire_sample dy_ref friction_limit_angle falloff_level falloff_speed).

Lemma ac_tire_sample_linear (angle : R) :
  angle <= friction_limit_angle ->
  brush angle = Fin (dy_ref * radians angle).
Proof.
  intros H. unfold ac_tire_sample.
  destruct (Rle_dec angle friction_limit_angle); [reflexivity | lra].
Qed.

(** Above a positive limit angle the exponent is not positive, so the
    exponential is at most 1 and does not overflow. *)
Lemma ac_tire_sample_falloff (angle : R) :
  0 < friction_limit_angle -> 0 <= falloff_speed ->
  friction_limit_angle < angle ->
  brush angle
  = Fin (dy_ref * radians friction_limit_angle
         * (falloff_level
            + (1 - falloff_level)
              * exp (- falloff_speed * (angle - friction_limit_angle)
                     / friction_limit_angle))).
Proof.
  intros Hz Hs H. unfold ac_tire_sample.
  destruct (Rle_dec angle friction_limit_angle); [lra|].
  unfold np_div.
  destruct (Req_dec_T friction_limit_angle 0); [lra|].
  assert (Harg : - falloff_speed * (angle - friction_limit_angle)
                 / friction_limit_angle <= 0).
  { replace (- falloff_speed * (angle - friction_limit_angle)
             / friction_limit_angle)
      with (- (falloff_speed * (angle - friction_limit_angle)
               / friction_limit_angle)) by (field; lra).
    assert (0 <= falloff_speed * (angle - friction_limit_angle)
                 / friction_limit_angle).
    { apply Rmult_le_pos; [apply Rmult_le_pos; lra|].
      apply Rlt_le, Rinv_0_lt_compat. exact Hz. }
    lra. }
  assert (Hexp : exp (- falloff_speed * (angle - friction_limit_angle)
                      / friction_limit_angle) <= 1).
  { rewrite <- exp_0. destruct Harg as [Hlt | ->];
      [apply Rlt_le, exp_increasing; exact Hlt | apply Rle_refl]. }
  assert (Hbig := float_overflow_large).
  unfold np_exp.
  destruct (Rle_dec float_overflow
              (exp (- falloff_speed * (angle - friction_limit_angle)
                    / friction_limit_angle))); [lra | reflexivity].
Qed.

End BrushFacts.

Lemma exp_neg_lt_inv (x : R) : 0 < x -> exp (- x) < / x.
Proof.
  intros Hx. rewrite exp_Ropp.
  apply Rinv_lt_contravar.
  - apply Rmult_lt_0_compat; [exact Hx | apply exp_pos].
  - assert (H := exp_ineq1 x ltac:(lra)). lra.
Qed.

(** ** Binary64 rounding *)

Lemma ln2_pos : 0 < ln 2.
Proof. assert (H := ln_lt_2). lra. Qed.

Lemma exp_le (x y : R) : x <= y -> exp x <= exp y.
Proof.
  intros [H | ->]; [apply Rlt_le, exp_increasing; exact H | apply Rle_refl].
Qed.

Lemma powerRZ2_pos (e : Z) : 0 < powerRZ 2 e.
Proof. apply powerRZ_lt. lra. Qed.

Lemma ln_pow2 (e : Z) : ln (powerRZ 2 e) = IZR e * ln 2.
Proof. rewrite powerRZ_Rpower by lra. apply ln_Rpower. Qed.

Lemma pow2_exp (e : Z) : powerRZ 2 e = exp (IZR e * ln 2).
Proof. rewrite powerRZ_Rpower by lra. reflexivity. Qed.

Lemma pow2_le (a b : Z) : (a <= b)%Z -> powerRZ 2 a <= powerRZ 2 b.
Proof.
  intros H. rewrite !pow2_exp. apply exp_le.
  apply Rmult_le_compat_r; [apply Rlt_le, ln2_pos | apply IZR_le, H].
Qed.

Lemma pow2_lt (a b : Z) : (a < b)%Z -> powerRZ 2 a < powerRZ 2 b.
Proof.
  intros H. rewrite !pow2_exp. apply exp_increasing.
  apply Rmult_lt_compat_r; [apply ln2_pos | apply IZR_lt, H].
Qed.

Lemma pow2_lt_inv (a b : Z) : powerRZ 2 a < powerRZ 2 b -> (a < b)%Z.
Proof.
  intros H. destruct (Z.lt_ge_cases a b) as [Hlt | Hge]; [exact Hlt|].
  assert (Hle := pow2_le b a Hge). lra.
Qed.

Lemma pow2_succ (e : Z) : powerRZ 2 (e + 1) = 2 * powerRZ 2 e.
Proof. rewrite powerRZ_add by lra. simpl. ring. Qed.

Lemma pow2_split (a b : Z) : powerRZ 2 a = powerRZ 2 (a - b) * powerRZ 2 b.
Proof. rewrite <- powerRZ_add by lra. f_equal. lia. Qed.

(** The binade of a non-zero real. *)
Lemma binade_spec (x : R) :
  x <> 0 -> powerRZ 2 (binade x) <= Rabs x < powerRZ 2 (binade x + 1).
Proof.
  intros Hx. assert (Ha : 0 < Rabs x) by (apply Rabs_pos_lt; exact Hx).
  assert (Hl := ln2_pos).
  unfold binade. set (L := ln (Rabs x) / ln 2).
  destruct (base_Int_part L) as [H1 H2].
  assert (HL : ln (Rabs x) = L * ln 2) by (unfold L; field; lra).
  assert (Hx' : Rabs x = exp (L * ln 2))
    by (rewrite <- HL; symmetry; apply exp_ln; exact Ha).
  clearbody L. rewrite !pow2_exp, Hx'.
  split.
  - apply exp_le. apply Rmult_le_compat_r; lra.
  - apply exp_increasing. rewrite plus_IZR.
    apply Rmult_lt_compat_r; lra.
Qed.

Lemma binade_unique (x : R) (e : Z) :
  powerRZ 2 e <= Rabs x < powerRZ 2 (e + 1) -> binade x = e.
Proof.
  intros [Hlo Hhi].
  assert (Hp := powerRZ2_pos e).
  assert (Hx : x <> 0).
  { intros ->. rewrite Rabs_R0 in Hlo. lra. }
  destruct (binade_spec x Hx) as [Blo Bhi].
  assert (H1 : (e < binade x + 1)%Z) by (apply pow2_lt_inv; lra).
  assert (H2 : (binade x < e + 1)%Z) by (apply pow2_lt_inv; lra).
  lia.
Qed.

Lemma binade_lt (x : R) (e : Z) :
  x <> 0 -> Rabs x < powerRZ 2 e -> (binade x < e)%Z.
Proof.
  intros Hx Hlt. destruct (binade_spec x Hx) as [Blo _].
  apply pow2_lt_inv. lra.
Qed.

Lemma binade_ge (x : R) (e : Z) :
  powerRZ 2 e <= Rabs x -> (e <= binade x)%Z.
Proof.
  intros Hle. assert (Hp := powerRZ2_pos e).
  assert (Hx : x <> 0).
  { intros ->. rewrite Rabs_R0 in Hle. lra. }
  destruct (binade_spec x Hx) as [_ Bhi].
  assert (H : (e < binade x + 1)%Z) by (apply pow2_lt_inv; lra).
  lia.
Qed.

Lemma binade_opp (x : R) : binade (- x) = binade x.
Proof. unfold binade. rewrite Rabs_Ropp. reflexivity. Qed.

Lemma ulp64_opp (x : R) : ulp64 (- x) = ulp64 x.
Proof. unfold ulp64. rewrite binade_opp. reflexivity. Qed.

Lemma ulp64_pos (x : R) : 0 < ulp64 x.
Proof. apply powerRZ2_pos. Qed.

(** ** The nearest integer *)

Lemma Int_part_bounds (t : R) : IZR (Int_part t) <= t < IZR (Int_part t) + 1.
Proof. destruct (base_Int_part t). lra. Qed.

Lemma Int_part_is (t : R) (k : Z) : IZR k <= t < IZR k + 1 -> Int_part t = k.
Proof. intros H. symmetry. apply Int_part_spec. lra. Qed.

Lemma nearest_even_near (t : R) (k : Z) :
  IZR k - 1 / 2 < t < IZR k + 1 / 2 -> nearest_even t = k.
Proof.
  intros [Hlo Hhi]. unfold nearest_even.
  destruct (Rle_dec (IZR k) t) as [Hge | Hlt].
  - rewrite (Int_part_is t k) by lra.
    destruct (Rlt_dec (t - IZR k) (1 / 2)); [reflexivity | lra].
  - rewrite (Int_part_is t (k - 1)) by (rewrite minus_IZR; lra).
    rewrite minus_IZR.
    destruct (Rlt_dec (t - (IZR k - 1)) (1 / 2)); [lra|].
    destruct (Rlt_dec (1 / 2) (t - (IZR k - 1))); [lia | lra].
Qed.

Lemma nearest_even_IZR (k : Z) : nearest_even (IZR k) = k.
Proof. apply nearest_even_near. lra. Qed.

Lemma nearest_even_cases (t : R) :
  nearest_even t = Int_part t /\ t - IZR (Int_part t) <= 1 / 2
  \/ nearest_even t = (Int_part t + 1)%Z /\ 1 / 2 <= t - IZR (Int_part t).
Proof.
  unfold nearest_even.
  destruct (Rlt_dec (t - IZR (Int_part t)) (1 / 2));
    [left; split; [reflexivity | lra]|].
  destruct (Rlt_dec (1 / 2) (t - IZR (Int_part t)));
    [right; split; [reflexivity | lra]|].
  destruct (Z.even (Int_part t)); [left | right];
    (split; [reflexivity | lra]).
Qed.

Lemma nearest_even_error (t : R) : Rabs (IZR (nearest_even t) - t) <= 1 / 2.
Proof.
  assert (Hb := Int_part_bounds t).
  apply Rabs_le.
  destruct (nearest_even_cases t) as [[-> H] | [-> H]];
    rewrite ?plus_IZR; lra.
Qed.

Lemma nearest_even_mono (s t : R) :
  s <= t -> (nearest_even s <= nearest_even t)%Z.
Proof.
  intros Hst.
  assert (Hs := Int_part_bounds s). assert (Ht := Int_part_bounds t).
  destruct (Z.lt_trichotomy (Int_part s) (Int_part t)) as [Hlt | [Heq | Hgt]].
  - assert (H1 : (nearest_even s <= Int_part s + 1)%Z)
      by (destruct (nearest_even_cases s) as [[-> _] | [-> _]]; lia).
    assert (H2 : (Int_part t <= nearest_even t)%Z)
      by (destruct (nearest_even_cases t) as [[-> _] | [-> _]]; lia).
    lia.
  - unfold nearest_even. rewrite Heq in *.
    destruct (Rlt_dec (s - IZR (Int_part t)) (1 / 2)),
             (Rlt_dec (t - IZR (Int_part t)) (1 / 2)); try lia; try lra;
    destruct (Rlt_dec (1 / 2) (s - IZR (Int_part t))),
             (Rlt_dec (1 / 2) (t - IZR (Int_part t))); try lia; try lra;
    destruct (Z.even (Int_part t)); lia.
  - exfalso. apply IZR_lt in Hgt.
    assert (IZR (Int_part t) + 1 <= IZR (Int_part s)).
    { rewrite <- plus_IZR. apply IZR_le. apply lt_IZR in Hgt. lia. }
    lra.
Qed.

Lemma nearest_even_opp (t : R) : nearest_even (- t) = (- nearest_even t)%Z.
Proof.
  assert (Hb := Int_part_bounds t).
  destruct (Req_dec_T t (IZR (Int_part t))) as [He | Hne].
  - rewrite He, <- opp_IZR, !nearest_even_IZR. reflexivity.
  - assert (Hf : Int_part (- t) = (- Int_part t - 1)%Z).
    { apply Int_part_is. rewrite minus_IZR, opp_IZR. lra. }
    unfold nearest_even. rewrite Hf, minus_IZR, opp_IZR.
    set (f := Int_part t) in *.
    destruct (Rlt_dec (t - IZR f) (1 / 2)),
             (Rlt_dec (- t - (- IZR f - 1)) (1 / 2)); try lra.
    + destruct (Rlt_dec (1 / 2) (- t - (- IZR f - 1))); [lia | lra].
    + destruct (Rlt_dec (1 / 2) (t - IZR f)); [lia | lra].
    + destruct (Rlt_dec (1 / 2) (t - IZR f)); [lra|].
      destruct (Rlt_dec (1 / 2) (- t - (- IZR f - 1))); [lra|].
      replace (- f - 1)%Z with (- (f + 1))%Z by lia.
      rewrite Z.even_opp, Z.even_add.
      destruct (Z.even f); simpl; lia.
Qed.

(** ** Rounding *)

Lemma round64_0 : round64 0 = 0.
Proof.
  unfold round64. unfold Rdiv. rewrite Rmult_0_l.
  change 0 with (IZR 0) at 1. rewrite nearest_even_IZR. simpl. ring.
Qed.

Lemma round64_opp (x : R) : round64 (- x) = - round64 x.
Proof.
  unfold round64. rewrite ulp64_opp.
  replace (- x / ulp64 x) with (- (x / ulp64 x)) by (unfold Rdiv; ring).
  rewrite nearest_even_opp, opp_IZR. ring.
Qed.

Lemma round64_nonneg (x : R) : 0 <= x -> 0 <= round64 x.
Proof.
  intros Hx. unfold round64. assert (Hu := ulp64_pos x).
  apply Rmult_le_pos; [|lra].
  apply IZR_le. rewrite <- (nearest_even_IZR 0).
  apply nearest_even_mono.
  apply Rmult_le_pos; [exact Hx | apply Rlt_le, Rinv_0_lt_compat, Hu].
Qed.

Lemma round64_error (x : R) : Rabs (round64 x - x) <= ulp64 x / 2.
Proof.
  assert (Hu := ulp64_pos x). unfold round64.
  assert (He := nearest_even_error (x / ulp64 x)).
  set (n := IZR (nearest_even (x / ulp64 x))) in *.
  replace (n * ulp64 x - x) with ((n - x / ulp64 x) * ulp64 x)
    by (field; lra).
  rewrite Rabs_mult, (Rabs_right (ulp64 x)) by lra.
  apply Rle_trans with (1 / 2 * ulp64 x); [|lra].
  apply Rmult_le_compat_r; lra.
Qed.

(** Rounding inside a known binade. *)
Lemma ulp64_binade (x : R) (e : Z) :
  binade x = e -> (-1022 <= e)%Z -> ulp64 x = powerRZ 2 (e - 52).
Proof. intros Hb He. unfold ulp64. rewrite Hb. f_equal. lia. Qed.

Lemma round64_near (x : R) (e k : Z) :
  binade x = e -> (-1022 <= e)%Z ->
  IZR k - 1 / 2 < x / powerRZ 2 (e - 52) < IZR k + 1 / 2 ->
  round64 x = IZR k * powerRZ 2 (e - 52).
Proof.
  intros Hb He Hk. unfold round64.
  rewrite (ulp64_binade x e Hb He).
  rewrite (nearest_even_near _ k Hk). reflexivity.
Qed.

Lemma round64_exact (x : R) (e k : Z) :
  binade x = e -> (-1022 <= e)%Z ->
  x = IZR k * powerRZ 2 (e - 52) ->
  round64 x = x.
Proof.
  intros Hb He Hx. rewrite (round64_near x e k Hb He); [symmetry; exact Hx|].
  assert (Hp := powerRZ2_pos (e - 52)).
  rewrite Hx at 1 2.
  replace (IZR k * powerRZ 2 (e - 52) / powerRZ 2 (e - 52)) with (IZR k)
    by (field; lra).
  lra.
Qed.

(** Monotonicity. *)
Lemma round64_le_pow2 (x : R) (e : Z) :
  (-1022 <= e)%Z -> 0 <= x <= powerRZ 2 e -> round64 x <= powerRZ 2 e.
Proof.
  intros He [H0 Hx].
  destruct (Req_dec_T x 0) as [-> | Hne].
  { rewrite round64_0. apply Rlt_le, powerRZ2_pos. }
  assert (Hu := ulp64_pos x).
  set (m := Z.max (binade x) (-1022)).
  assert (Hm : (m <= e)%Z).
  { destruct (binade_spec x Hne) as [Blo _].
    rewrite Rabs_right in Blo by lra.
    assert (Hle : powerRZ 2 (binade x) <= powerRZ 2 e) by lra.
    destruct (Z.le_gt_cases (binade x) e) as [Hbe | Hbe]; [lia|].
    exfalso. assert (Hlt := pow2_lt e (binade x) Hbe).
    destruct Hx as [Hx | Hx]; [lra|].
    (* x = 2^e: binade x = e *)
    assert (Hbx : binade x = e).
    { apply binade_unique. rewrite Rabs_right by lra.
      rewrite Hx. split; [lra | apply pow2_lt; lia]. }
    lia. }
  unfold round64. fold m in Hu. unfold ulp64 in *. fold m in Hu |- *.
  assert (Hsplit : powerRZ 2 e = powerRZ 2 (e - (m - 52)) * powerRZ 2 (m - 52))
    by apply pow2_split.
  rewrite Hsplit.
  apply Rmult_le_compat_r; [lra|].
  assert (Hint : powerRZ 2 (e - (m - 52)) = IZR (2 ^ (e - (m - 52)))).
  { replace (e - (m - 52))%Z with (Z.of_nat (Z.to_nat (e - (m - 52)))) by lia.
    rewrite <- pow_powerRZ, pow_IZR. reflexivity. }
  rewrite Hint. apply IZR_le.
  rewrite <- (nearest_even_IZR (2 ^ (e - (m - 52)))).
  apply nearest_even_mono. rewrite <- Hint.
  apply (Rmult_le_reg_r (powerRZ 2 (m - 52))); [lra|].
  rewrite <- Hsplit.
  replace (x / powerRZ 2 (m - 52) * powerRZ 2 (m - 52)) with x
    by (field; lra).
  lra.
Qed.

Lemma round64_ge_pow2 (x : R) (e : Z) :
  (-1022 <= e)%Z -> powerRZ 2 e <= x -> powerRZ 2 e <= round64 x.
Proof.
  intros He Hx.
  assert (Hp := powerRZ2_pos e).
  assert (Hu := ulp64_pos x).
  set (m := Z.max (binade x) (-1022)).
  assert (Hb : (e <= binade x)%Z).
  { apply binade_ge. rewrite Rabs_right by lra. exact Hx. }
  assert (Hm : (e <= m)%Z) by lia.
  assert (Hbm : m = binade x) by lia.
  (* x >= 2^(binade x) = 2^m *)
  assert (Hxm : powerRZ 2 m <= x).
  { assert (Hne : x <> 0) by lra.
    destruct (binade_spec x Hne) as [Blo _].
    rewrite Rabs_right in Blo by lra. rewrite Hbm. exact Blo. }
  apply Rle_trans with (powerRZ 2 m); [apply pow2_le; exact Hm|].
  unfold round64, ulp64 in *. fold m in Hu |- *.
  assert (Hsplit : powerRZ 2 m = powerRZ 2 52 * powerRZ 2 (m - 52)).
  { rewrite (pow2_split m (m - 52)). f_equal. f_equal. lia. }
  rewrite Hsplit at 1.
  apply Rmult_le_compat_r; [lra|].
  assert (Hint : powerRZ 2 52 = IZR (2 ^ 52)).
  { change 52%Z with (Z.of_nat 52).
    rewrite <- pow_powerRZ, pow_IZR. reflexivity. }
  rewrite Hint. apply IZR_le.
  rewrite <- (nearest_even_IZR (2 ^ 52)).
  apply nearest_even_mono. rewrite <- Hint.
  apply (Rmult_le_reg_r (powerRZ 2 (m - 52))); [lra|].
  rewrite <- Hsplit.
  replace (x / powerRZ 2 (m - 52) * powerRZ 2 (m - 52)) with x
    by (field; lra).
  exact Hxm.
Qed.

Lemma round64_mono_pos (x y : R) :
  0 <= x -> x <= y -> round64 x <= round64 y.
Proof.
  intros Hx Hxy.
  destruct (Req_dec_T x 0) as [-> | Hne].
  { rewrite round64_0. apply round64_nonneg. lra. }
  assert (Hy : y <> 0) by lra.
  destruct (binade_spec x Hne) as [Bxl Bxh].
  destruct (binade_spec y Hy) as [Byl Byh].
  rewrite Rabs_right in Bxl, Bxh, Byl, Byh by lra.
  set (mx := Z.max (binade x) (-1022)).
  set (my := Z.max (binade y) (-1022)).
  assert (Hbin : (binade x <= binade y)%Z).
  { assert (H : (binade x < binade y + 1)%Z) by (apply pow2_lt_inv; lra).
    lia. }
  destruct (Z.eq_dec mx my) as [Heq | Hneq].
  - unfold round64, ulp64. fold mx my. rewrite Heq.
    assert (Hp := powerRZ2_pos (my - 52)).
    apply Rmult_le_compat_r; [lra|]. apply IZR_le.
    apply nearest_even_mono. unfold Rdiv.
    apply Rmult_le_compat_r; [apply Rlt_le, Rinv_0_lt_compat, Hp | exact Hxy].
  - assert (Hlt : (mx < my)%Z) by lia.
    assert (Hmy : my = binade y) by lia.
    apply Rle_trans with (powerRZ 2 (mx + 1)).
    + apply round64_le_pow2; [lia|]. split; [lra|].
      apply Rle_trans with (powerRZ 2 (binade x + 1)); [lra|].
      apply pow2_le. lia.
    + apply Rle_trans with (powerRZ 2 my); [apply pow2_le; lia|].
      apply round64_ge_pow2; [lia|]. rewrite Hmy. exact Byl.
Qed.

Lemma round64_mono (x y : R) : x <= y -> round64 x <= round64 y.
Proof.
  intros Hxy.
  destruct (Rle_dec 0 x) as [Hx | Hx].
  - apply round64_mono_pos; assumption.
  - destruct (Rle_dec 0 y) as [Hy | Hy].
    + apply Rle_trans with 0.
      * assert (H := round64_nonneg (- x) ltac:(lra)).
        rewrite round64_opp in H. lra.
      * apply round64_nonneg. exact Hy.
    + assert (H := round64_mono_pos (- y) (- x) ltac:(lra) ltac:(lra)).
      rewrite !round64_opp in H. lra.
Qed.

(** Concrete powers of two, for [lra]. *)
Ltac pow2_norm :=
  repeat match goal with
  | |- context [powerRZ 2 ?z] =>
      let z' := eval vm_compute in z in
      lazymatch z' with
      | Z0 => change (powerRZ 2 z) with 1
      | Zpos ?p =>
          let n := eval vm_compute in (Pos.to_nat p) in
          change (powerRZ 2 z) with (2 ^ n)
      | Zneg ?p =>
          let n := eval vm_compute in (Pos.to_nat p) in
          change (powerRZ 2 z) with (/ 2 ^ n)
      end
  end.

(** A positive value [k * 2^(e-52)] of the binade [e] is a float. *)
Lemma round64_float (x : R) (e k : Z) :
  (-1022 <= e)%Z ->
  powerRZ 2 e <= Rabs x < powerRZ 2 (e + 1) ->
  x = IZR k * powerRZ 2 (e - 52) ->
  round64 x = x.
Proof.
  intros He Hb Hx. apply (round64_exact x e k); [|exact He | exact Hx].
  apply binade_unique. exact Hb.
Qed.

Lemma exp_INR (n : nat) (x : R) : exp (INR n * x) = exp x ^ n.
Proof.
  induction n as [|n IH].
  - simpl. rewrite Rmult_0_l. apply exp_0.
  - rewrite S_INR, Rmult_plus_distr_r, Rmult_1_l, exp_plus, IH.
    simpl. ring.
Qed.

Lemma exp_07 : 2 <= exp (7 / 10).
Proof.
  replace (7 / 10) with (INR 64 * (7 / 640))
    by (rewrite INR_IZR_INZ; simpl; lra).
  rewrite exp_INR.
  apply Rle_trans with ((1 + 7 / 640) ^ 64); [lra|].
  apply pow_incr. assert (H := exp_ineq1 (7 / 640) ltac:(lra)). lra.
Qed.

Lemma exp_371 : exp (- (371 / 10)) <= / 2 ^ 53.
Proof.
  rewrite exp_Ropp.
  apply Rinv_le_contravar; [apply pow_lt; lra|].
  replace (371 / 10) with (INR 53 * (7 / 10))
    by (rewrite INR_IZR_INZ; simpl; lra).
  rewrite exp_INR. apply pow_incr.
  assert (H := exp_07). lra.
Qed.

(** ** The scenario of the specification *)

(** The float of the literal [0.6]. *)
Lemma round64_06 : round64 0.6 = 5404319552844595 * / 2 ^ 53.
Proof.
  rewrite (round64_near 0.6 (-1) 5404319552844595).
  - pow2_norm. reflexivity.
  - apply binade_unique. rewrite Rabs_right by lra. pow2_norm. lra.
  - lia.
  - pow2_norm. lra.
Qed.

Lemma float_39_5 : round64 (48 - 8.5) = 39.5.
Proof.
  replace (48 - 8.5) with 39.5 by lra.
  apply (round64_float 39.5 5 5559130790035456); [lia | |].
  - rewrite Rabs_right by lra. pow2_norm. lra.
  - pow2_norm. lra.
Qed.

Lemma float_316 : round64 (- 8 * 39.5) = - 316.
Proof.
  replace (- 8 * 39.5) with (- 316) by lra.
  apply (round64_float (- 316) 8 (- 5559130790035456)); [lia | |].
  - rewrite Rabs_left by lra. pow2_norm. lra.
  - pow2_norm. lra.
Qed.

Lemma exponent_at_48 : round64 (- 316 / 8.5) <= - (371 / 10).
Proof.
  assert (He := round64_error (- 316 / 8.5)).
  rewrite (ulp64_binade _ 5) in He.
  - assert (Hu := Rle_abs (round64 (- 316 / 8.5) - - 316 / 8.5)).
    revert He Hu. pow2_norm. lra.
  - apply binade_unique. rewrite Rabs_left by lra. pow2_norm. lra.
  - lia.
Qed.

Lemma float_pow2_m53 : round64 (/ 2 ^ 53) = / 2 ^ 53.
Proof.
  apply (round64_float _ (-53) 4503599627370496); [lia | |].
  - rewrite Rabs_right by lra. pow2_norm. lra.
  - pow2_norm. lra.
Qed.

Lemma float_7_16 : round64 (7 / 16) = 7 / 16.
Proof.
  apply (round64_float _ (-2) 7881299347898368); [lia | |].
  - rewrite Rabs_right by lra. pow2_norm. lra.
  - pow2_norm. lra.
Qed.

Lemma float_7_pow2_m57 : round64 (7 / 2 ^ 57) = 7 / 2 ^ 57.
Proof.
  apply (round64_float _ (-55) 7881299347898368); [lia | |].
  - rewrite Rabs_right by lra. pow2_norm. lra.
  - pow2_norm. lra.
Qed.

(** Adding a term below half a unit in the last place to the float of
    [0.6] gives that float back. *)
Lemma absorbed_by_06 (t : R) :
  0 <= t <= 7 / 2 ^ 57 -> round64 (round64 0.6 + t) = round64 0.6.
Proof.
  intros Ht. rewrite round64_06.
  rewrite (round64_near _ (-1) 5404319552844595).
  - pow2_norm. reflexivity.
  - apply binade_unique. rewrite Rabs_right by lra. pow2_norm. lra.
  - lia.
  - pow2_norm. lra.
Qed.

Lemma falloff_factor_at_48 :
  0 <= exp64 (round64 (round64 (- 8 * round64 (48 - 8.5)) / 8.5))
    <= / 2 ^ 53.
Proof.
  rewrite float_39_5, float_316. unfold exp64. split.
  - apply round64_nonneg. apply Rlt_le, exp_pos.
  - rewrite <- float_pow2_m53. apply round64_mono.
    apply Rle_trans with (exp (- (371 / 10))); [|exact exp_371].
    apply exp_le. exact exponent_at_48.
Qed.

Lemma ac_tire_sample64_at_48 :
  ac_tire_sample64 (round64 1.26) 8.5 (round64 0.6) 8 48
  = round64 (round64 (round64 1.26 * radians64 8.5) * round64 0.6).
Proof.
  unfold ac_tire_sample64.
  destruct (Rle_dec 48 8.5) as [H | _]; [lra|].
  f_equal. f_equal.
  apply absorbed_by_06.
  assert (Hf := falloff_factor_at_48).
  set (ff := exp64 _) in *.
  assert (Hom : 0 <= round64 (1 - round64 0.6) <= 7 / 16).
  { split.
    - apply round64_nonneg. rewrite round64_06. lra.
    - rewrite <- float_7_16. apply round64_mono. rewrite round64_06. lra. }
  set (om := round64 (1 - round64 0.6)) in *.
  split.
  - apply round64_nonneg. apply Rmult_le_pos; lra.
  - rewrite <- float_7_pow2_m57. apply round64_mono.
    apply Rle_trans with (7 / 16 * / 2 ^ 53); [|lra].
    apply Rmult_le_compat; lra.
Qed.

(** In general the stored force is at least the product of the peak
    force and the falloff level. *)
Lemma ac_tire_sample64_floor
  (dy_ref friction_limit_angle falloff_level falloff_speed angle : R) :
  0 <= dy_ref -> 0 <= friction_limit_angle -> 0 <= falloff_level <= 1 ->
  round64 falloff_level = falloff_level ->
  friction_limit_angle < angle ->
  round64 (round64 (dy_ref * radians64 friction_limit_angle) * falloff_level)
  <= ac_tire_sample64 dy_ref friction_limit_angle falloff_level
       falloff_speed angle.
Proof.
  intros Hd Hl [Hf0 Hf1] Hfl Ha. unfold ac_tire_sample64.
  destruct (Rle_dec angle friction_limit_angle) as [H | _]; [lra|].
  apply round64_mono.
  assert (Hpeak : 0 <= round64 (dy_ref * radians64 friction_limit_angle)).
  { apply round64_nonneg. apply Rmult_le_pos; [exact Hd|].
    unfold radians64. apply round64_nonneg.
    apply Rmult_le_pos; [exact Hl|]. apply round64_nonneg.
    apply Rmult_le_pos; [|lra].
    apply round64_nonneg. apply Rlt_le, PI_RGT_0. }
  apply Rmult_le_compat_l; [exact Hpeak|].
  rewrite <- Hfl at 1. apply round64_mono.
  assert (0 <= round64 (round64 (1 - falloff_level)
                        * exp64 (round64 (round64 (- falloff_speed
                                     * round64 (angle - friction_limit_angle))
                                   / friction_limit_angle)))); [|lra].
  apply round64_nonneg. apply Rmult_le_pos.
  - apply round64_nonneg. lra.
  - unfold exp64. apply round64_nonneg. apply Rlt_le, exp_pos.
Qed.

(** C8 (counterexample).  In binary64, with the parameters of the
    scenario (dy_ref = 1.26, limit angle 8.5, falloff level 0.6,
    falloff speed 8), the force stored for the finite angle 48 > 8.5 is
    exactly what [peak_force * falloff_level] evaluates to: the
    exponential term, below [2^-53], is absorbed when it is added to
    the falloff level, so the force is not strictly greater than
    that product. *)
Lemma brush_model_reaches_floor :
  8.5 < 48
  /\ ac_tire_sample64 (round64 1.26) 8.5 (round64 0.6) 8 48
     = round64 (round64 (round64 1.26 * radians64 8.5) * round64 0.6).
Proof. split; [lra | exact ac_tire_sample64_at_48]. Qed.

(** C8 (amended).  With [dy_ref > 0], [friction_limit_angle > 0],
    [falloff_level] in [0, 1) and [falloff_speed > 0], and with
    [peak = dy_ref * radians friction_limit_angle]: the force stored for
    the angle [friction_limit_angle] is [peak]; the force stored for an
    angle above it is
    [peak * (falloff_level + (1 - falloff_level)
             * exp (- falloff_speed * (angle - limit) / limit))],
    which is at least [peak * falloff_level]; and that value tends to
    [peak * falloff_level] as the angle grows.  The lower bound holds
    of the rounded computation as well: in binary64 the force stored
    above the limit angle is at least the float that
    [peak * falloff_level] evaluates to. *)
Theorem brush_model_falloff
  (dy_ref friction_limit_angle falloff_level falloff_speed : R) :
  0 < dy_ref -> 0 < friction_limit_angle ->
  0 <= falloff_level < 1 -> 0 < falloff_speed ->
  let peak := dy_ref * radians friction_limit_angle in
  let tail := fun angle =>
    peak * (falloff_level
            + (1 - falloff_level)
              * exp (- falloff_speed * (angle - friction_limit_angle)
                     / friction_limit_angle)) in
  let model :=
    ac_tire_model dy_ref friction_limit_angle falloff_level falloff_speed in
  (forall (angles : list R) (i : nat),
     nth_error angles i = Some friction_limit_angle ->
     nth_error (model angles) i = Some (Fin peak))
  /\ (forall (angles : list R) (i : nat) (angle : R),
     nth_error angles i = Some angle -> friction_limit_angle < angle ->
     nth_error (model angles) i = Some (Fin (tail angle))
     /\ peak * falloff_level <= tail angle)
  /\ (forall eps : R, 0 < eps ->
     exists bound : R, forall angle : R, bound < angle ->
       friction_limit_angle < angle
       /\ Rabs (tail angle - peak * falloff_level) < eps)
  /\ (forall angle : R,
     friction_limit_angle < angle -> round64 falloff_level = falloff_level ->
     round64 (round64 (dy_ref * radians64 friction_limit_angle)
              * falloff_level)
     <= ac_tire_sample64 dy_ref friction_limit_angle falloff_level
          falloff_speed angle).
Proof.
  intros Hd Hl [Hf0 Hf1] Hs peak tail model.
  assert (Hpeak : 0 < peak).
  { apply Rmult_lt_0_compat; [exact Hd | apply radians_pos; exact Hl]. }
  assert (Hc : 0 < peak * (1 - falloff_level)).
  { apply Rmult_lt_0_compat; lra. }
  assert (Hgap : forall angle,
    tail angle - peak * falloff_level
    = peak * (1 - falloff_level)
      * exp (- (falloff_speed * (angle - friction_limit_angle)
                / friction_limit_angle))).
  { intros angle. unfold tail.
    replace (- falloff_speed * (angle - friction_limit_angle)
             / friction_limit_angle)
      with (- (falloff_speed * (angle - friction_limit_angle)
               / friction_limit_angle)) by (field; lra).
    ring. }
  split; [|split; [|split]].
  - intros angles i Hn. unfold model, ac_tire_model.
    rewrite nth_error_map, Hn. simpl.
    rewrite ac_tire_sample_linear by lra. reflexivity.
  - intros angles i angle Hn Hlt. split.
    + unfold model, ac_tire_model. rewrite nth_error_map, Hn. simpl.
      rewrite ac_tire_sample_falloff by lra. reflexivity.
    + assert (H := Hgap angle).
      assert (He := exp_pos (- (falloff_speed * (angle - friction_limit_angle)
                                / friction_limit_angle))).
      assert (0 < tail angle - peak * falloff_level);
        [rewrite H; apply Rmult_lt_0_compat; assumption | lra].
  - intros eps Heps.
    set (c := peak * (1 - falloff_level)) in *.
    exists (friction_limit_angle
            + friction_limit_angle * (c / eps) / falloff_speed).
    intros angle Hb.
    assert (Hk : 0 < c / eps) by (apply Rdiv_lt_0_compat; assumption).
    assert (Hstep : 0 < friction_limit_angle * (c / eps) / falloff_speed).
    { apply Rdiv_lt_0_compat; [apply Rmult_lt_0_compat|]; assumption. }
    split; [lra|].
    rewrite Hgap.
    set (x := falloff_speed * (angle - friction_limit_angle)
              / friction_limit_angle).
    assert (Hx : c / eps < x).
    { unfold x.
      apply (Rmult_lt_reg_r (friction_limit_angle / falloff_speed)).
      - apply Rdiv_lt_0_compat; assumption.
      - replace (falloff_speed * (angle - friction_limit_angle)
                 / friction_limit_angle
                 * (friction_limit_angle / falloff_speed))
          with (angle - friction_limit_angle) by (field; lra).
        replace (c / eps * (friction_limit_angle / falloff_speed))
          with (friction_limit_angle * (c / eps) / falloff_speed)
          by (field; lra).
        lra. }
    assert (Hxpos : 0 < x) by lra.
    assert (He := exp_neg_lt_inv x Hxpos).
    assert (Hp := exp_pos (- x)).
    rewrite Rabs_right
      by (apply Rle_ge, Rlt_le, Rmult_lt_0_compat; assumption).
    apply Rlt_trans with (c * / x).
    + apply Rmult_lt_compat_l; assumption.
    + apply (Rmult_lt_reg_r x); [exact Hxpos|].
      replace (c * / x * x) with c by (field; lra).
      apply (Rmult_lt_reg_r (/ eps));
        [apply Rinv_0_lt_compat; exact Heps|].
      replace (eps * x * / eps) with x by (field; lra).
      exact Hx.
  - intros angle Ha Hfl. apply ac_tire_sample64_floor; lra.
Qed.

Lemma brush_model_falloff_at_scenario :
  nth_error (ac_tire_model 1.26 8.5 0.6 8 [0; 8.5; 15]) 1
  = Some (Fin (1.26 * radians 8.5))
  /\ exists force,
       nth_error (ac_tire_model 1.26 8.5 0.6 8 [0; 8.5; 15]) 2
       = Some (Fin force)
       /\ 1.26 * radians 8.5 * 0.6 <= force.
Proof.
  destruct (brush_model_falloff 1.26 8.5 0.6 8
              ltac:(lra) ltac:(lra) ltac:(lra) ltac:(lra))
    as (Hat & Habove & _).
  split; [apply (Hat [0; 8.5; 15] 1%nat); reflexivity|].
  destruct (Habove [0; 8.5; 15] 2%nat 15 eq_refl ltac:(lra))
    as (Hforce & Hfloor).
  eexists. split; [exact Hforce | exact Hfloor].
Defined.

(** ** The lookup-table text *)

Section LutFacts.

Local Open Scope string_scope.
Local Open Scope Z_scope.

Lemma string_app_assoc (a b c : string) : (a ++ b) ++ c = a ++ (b ++ c).
Proof. induction a as [|x a IH]; simpl; [reflexivity | rewrite IH; reflexivity]. Qed.

Lemma string_app_nil_r (a : string) : a ++ "" = a.
Proof. induction a as [|x a IH]; simpl; [reflexivity | rewrite IH; reflexivity]. Qed.

Lemma string_length_app (a b : string) :
  String.length (a ++ b) = (String.length a + String.length b)%nat.
Proof. induction a as [|x a IH]; simpl; [reflexivity | rewrite IH; reflexivity]. Qed.

Lemma string_forall_append (p : ascii -> bool) (a b : string) :
  string_forall p (a ++ b) = string_forall p a && string_forall p b.
Proof.
  induction a as [|x a IH]; simpl; [reflexivity|].
  rewrite IH. apply andb_assoc.
Qed.

Lemma string_forall_impl (p q : ascii -> bool) (s : string) :
  (forall c, p c = true -> q c = true) ->
  string_forall p s = true -> string_forall q s = true.
Proof.
  intros Hpq. induction s as [|x s IH]; simpl; [reflexivity|].
  intros H. apply andb_true_iff in H as [Hx Hs].
  rewrite (Hpq x Hx), (IH Hs). reflexivity.
Qed.

(** *** Digits *)

Lemma digit_value_char (d : Z) :
  0 <= d < 10 -> digit_value (digit_char d) = Some d.
Proof.
  intros Hd.
  assert (H : d = 0 \/ d = 1 \/ d = 2 \/ d = 3 \/ d = 4 \/ d = 5 \/ d = 6
              \/ d = 7 \/ d = 8 \/ d = 9) by lia.
  repeat (destruct H as [-> | H]; [reflexivity|]). subst d. reflexivity.
Qed.

Lemma is_digit_char (d : Z) : 0 <= d < 10 -> is_digit (digit_char d) = true.
Proof. intros Hd. unfold is_digit. rewrite digit_value_char by exact Hd. reflexivity. Qed.

Lemma fixed_digits_length (k : nat) (v : Z) :
  String.length (fixed_digits k v) = k.
Proof.
  revert v. induction k as [|k IH]; intros v; cbn [fixed_digits];
    [reflexivity|].
  rewrite string_length_app, IH. cbn [String.length]. lia.
Qed.

Lemma fixed_digits_are_digits (k : nat) (v : Z) :
  string_forall is_digit (fixed_digits k v) = true.
Proof.
  revert v. induction k as [|k IH]; intros v; cbn [fixed_digits];
    [reflexivity|].
  rewrite string_forall_append, IH. cbn [string_forall andb].
  rewrite is_digit_char; [reflexivity|].
  apply Z.mod_pos_bound. lia.
Qed.

Lemma parse_digits_fixed (k : nat) (v acc : Z) (rest : string) :
  parse_digits (fixed_digits k v ++ rest) acc
  = parse_digits rest (acc * 10 ^ Z.of_nat k + v mod 10 ^ Z.of_nat k).
Proof.
  revert v acc rest. induction k as [|k IH]; intros v acc rest.
  - cbn [fixed_digits append Z.of_nat]. rewrite Z.pow_0_r, Z.mod_1_r.
    f_equal. lia.
  - cbn [fixed_digits]. rewrite string_app_assoc. cbn [append].
    rewrite IH. cbn [parse_digits].
    rewrite digit_value_char by (apply Z.mod_pos_bound; lia).
    f_equal.
    rewrite Nat2Z.inj_succ, Z.pow_succ_r by lia.
    rewrite (Z.rem_mul_r v 10 (10 ^ Z.of_nat k)) by lia.
    lia.
Qed.

Lemma width_upto_bound (fuel : nat) (v : Z) :
  0 <= v < 2 ^ Z.of_nat fuel -> v < 10 ^ Z.of_nat (width_upto fuel v).
Proof.
  revert v. induction fuel as [|fuel IH]; intros v Hv.
  - cbn [width_upto Z.of_nat] in *. rewrite Z.pow_0_r in Hv. lia.
  - cbn [width_upto]. destruct (Z.ltb_spec v 10) as [Hlt | Hge].
    + change (10 ^ Z.of_nat 1) with 10. lia.
    + rewrite Nat2Z.inj_succ, Z.pow_succ_r by lia.
      assert (Hq : v / 10 < 10 ^ Z.of_nat (width_upto fuel (v / 10))).
      { apply IH. split; [apply Z.div_pos; lia|].
        rewrite Nat2Z.inj_succ, Z.pow_succ_r in Hv by lia.
        apply Z.div_lt_upper_bound; lia. }
      assert (Hd := Z.div_mod v 10 ltac:(lia)).
      assert (Hm := Z.mod_pos_bound v 10 ltac:(lia)).
      lia.
Qed.

Lemma width_upto_pos (fuel : nat) (v : Z) : (1 <= width_upto fuel v)%nat.
Proof. destruct fuel; simpl; [lia|]. destruct (v <? 10); lia. Qed.

Lemma dec_width_bound (v : Z) : 0 <= v -> v < 10 ^ Z.of_nat (dec_width v).
Proof.
  intros Hv. unfold dec_width. apply width_upto_bound.
  split; [exact Hv|].
  rewrite Nat2Z.inj_add, Z2Nat.id by apply Z.log2_nonneg.
  destruct (Z.eq_dec v 0) as [-> | Hne].
  - reflexivity.
  - replace (Z.log2 v + Z.of_nat 1) with (Z.succ (Z.log2 v)) by lia.
    apply Z.log2_spec. lia.
Qed.

Lemma parse_digits_dec_string (v : Z) :
  0 <= v -> parse_digits (dec_string v) 0 = Some v.
Proof.
  intros Hv. unfold dec_string.
  rewrite <- (string_app_nil_r (fixed_digits (dec_width v) v)).
  rewrite parse_digits_fixed. cbn [parse_digits].
  rewrite Z.mod_small by (split; [exact Hv | apply dec_width_bound; exact Hv]).
  reflexivity.
Qed.

(** *** Splitting *)

Lemma lacks_append (sep : ascii) (a b : string) :
  lacks sep (a ++ b) = lacks sep a && lacks sep b.
Proof. apply string_forall_append. Qed.

Lemma split_on_lacks (sep : ascii) (a : string) :
  lacks sep a = true -> split_on sep a = [a].
Proof.
  induction a as [|c a IH]; cbn [lacks string_forall split_on];
    [reflexivity|].
  intros H. apply andb_true_iff in H as [Hc Ha].
  apply negb_true_iff in Hc. rewrite Hc.
  unfold lacks in IH. rewrite (IH Ha). reflexivity.
Qed.

Lemma split_on_first (sep : ascii) (a b : string) :
  lacks sep a = true ->
  split_on sep (a ++ String sep b) = a :: split_on sep b.
Proof.
  induction a as [|c a IH]; cbn [lacks string_forall split_on append].
  - intros _. rewrite Ascii.eqb_refl. reflexivity.
  - intros H. apply andb_true_iff in H as [Hc Ha].
    apply negb_true_iff in Hc. rewrite Hc.
    unfold lacks in IH. rewrite (IH Ha). reflexivity.
Qed.

Ltac each_ascii c :=
  destruct c as [[] [] [] [] [] [] [] []];
  try reflexivity; try discriminate.

Lemma digit_not_point (c : ascii) :
  is_digit c = true -> negb (Ascii.eqb c ".") = true.
Proof. each_ascii c. Qed.

Lemma numeric_not_pipe (c : ascii) :
  numeric_char c = true -> negb (Ascii.eqb c "|") = true.
Proof. each_ascii c. Qed.

Lemma numeric_not_newline (c : ascii) :
  numeric_char c = true -> negb (Ascii.eqb c newline) = true.
Proof. each_ascii c. Qed.

Lemma digit_numeric (c : ascii) : is_digit c = true -> numeric_char c = true.
Proof. unfold numeric_char. intros ->. reflexivity. Qed.

Lemma digit_not_minus (c : ascii) (s : string) :
  is_digit c = true -> parse_decimal (String c s) = parse_unsigned (String c s).
Proof. each_ascii c. Qed.

(** *** One number *)

Lemma scaled_round_nonneg (k : nat) (q : Q) : 0 <= scaled_round k q.
Proof.
  unfold scaled_round.
  assert (Hfl : 0 <= Z.abs (Qnum q) * 10 ^ Z.of_nat k / Z.pos (Qden q)).
  { apply Z.div_pos; [|lia].
    apply Z.mul_nonneg_nonneg; [apply Z.abs_nonneg | apply Z.pow_nonneg; lia]. }
  destruct (2 * _ ?= Z.pos (Qden q)); [|lia|lia].
  destruct (Z.even _); lia.
Qed.

Lemma fixed_digits_cons (k : nat) (v : Z) :
  exists c rest,
    fixed_digits (S k) v = String c rest /\ is_digit c = true.
Proof.
  assert (Hd := fixed_digits_are_digits (S k) v).
  assert (Hl := fixed_digits_length (S k) v).
  destruct (fixed_digits (S k) v) as [|c rest]; [discriminate|].
  exists c, rest. split; [reflexivity|].
  cbn [string_forall] in Hd. apply andb_true_iff in Hd. apply Hd.
Qed.

Lemma dec_string_cons (v : Z) :
  exists c rest, dec_string v = String c rest /\ is_digit c = true.
Proof.
  unfold dec_string.
  assert (Hw := width_upto_pos (Z.to_nat (Z.log2 v) + 1) v).
  fold (dec_width v) in Hw.
  destruct (dec_width v) as [|w]; [lia|]. apply fixed_digits_cons.
Qed.

Lemma dec_string_digits (v : Z) : string_forall is_digit (dec_string v) = true.
Proof. apply fixed_digits_are_digits. Qed.

Lemma digits_lack_point (s : string) :
  string_forall is_digit s = true -> lacks "." s = true.
Proof. apply string_forall_impl. exact digit_not_point. Qed.

(** An integer part, a point and [k+1] fraction digits read back as the
    number they spell. *)
Lemma parse_unsigned_fixed (k : nat) (i f : Z) :
  0 <= i -> 0 <= f < 10 ^ Z.of_nat (S k) ->
  parse_unsigned (dec_string i ++ String "." (fixed_digits (S k) f))
  = Some (Qmake (i * 10 ^ Z.of_nat (S k) + f)
                (Z.to_pos (10 ^ Z.of_nat (S k)))).
Proof.
  intros Hi Hf. unfold parse_unsigned.
  rewrite split_on_first by (apply digits_lack_point, dec_string_digits).
  rewrite split_on_lacks
    by (apply digits_lack_point, fixed_digits_are_digits).
  assert (Hpi := parse_digits_dec_string i Hi).
  assert (Hpf : parse_digits (fixed_digits (S k) f) 0 = Some f).
  { rewrite <- (string_app_nil_r (fixed_digits (S k) f)).
    rewrite parse_digits_fixed. cbn [parse_digits].
    rewrite Z.mod_small by exact Hf. reflexivity. }
  assert (Hlen := fixed_digits_length (S k) f).
  destruct (dec_string_cons i) as (ci & si & Hci & _).
  destruct (fixed_digits_cons k f) as (cf & sf & Hcf & _).
  rewrite Hci, Hcf in *. rewrite Hpi, Hpf, Hlen. reflexivity.
Qed.

(** Reading a printed number gives the number rounded to the printed
    precision. *)
Lemma parse_format_fixed (k : nat) (q : Q) :
  parse_decimal (format_fixed (S k) q) = Some (round_decimals (S k) q).
Proof.
  unfold format_fixed, round_decimals.
  set (m := scaled_round (S k) q).
  set (scale := 10 ^ Z.of_nat (S k)).
  assert (Hm : 0 <= m) by apply scaled_round_nonneg.
  assert (Hs : 0 < scale) by (apply Z.pow_pos_nonneg; lia).
  assert (Hi : 0 <= m / scale) by (apply Z.div_pos; lia).
  assert (Hf : 0 <= m mod scale < scale) by (apply Z.mod_pos_bound; lia).
  assert (Hsplit : m / scale * scale + m mod scale = m).
  { rewrite (Z.div_mod m scale) at 3 by lia. lia. }
  change ("." ++ fixed_digits (S k) (m mod scale))
    with (String "." (fixed_digits (S k) (m mod scale))).
  assert (Hu := parse_unsigned_fixed k (m / scale) (m mod scale) Hi Hf).
  fold scale in Hu. rewrite Hsplit in Hu.
  destruct (Qnum q <? 0).
  - change ("-" ++ ?s) with (String "-" s).
    cbn [append]. unfold parse_decimal. rewrite Hu. reflexivity.
  - cbn [append].
    destruct (dec_string_cons (m / scale)) as (c & rest & Hc & Hd).
    rewrite Hc in *. cbn [append] in *.
    rewrite digit_not_minus by exact Hd. exact Hu.
Qed.

(** *** One line *)

Lemma format_fixed_numeric (k : nat) (q : Q) :
  string_forall numeric_char (format_fixed k q) = true.
Proof.
  unfold format_fixed.
  repeat rewrite string_forall_append.
  assert (Hd : forall s, string_forall is_digit s = true ->
                         string_forall numeric_char s = true).
  { intros s. apply string_forall_impl. exact digit_numeric. }
  rewrite (Hd _ (dec_string_digits _)).
  assert (Hsign : string_forall numeric_char
                    (if Qnum q <? 0 then "-" else "") = true)
    by (destruct (Qnum q <? 0); reflexivity).
  rewrite Hsign. destruct k as [|k]; [reflexivity|].
  rewrite string_forall_append, (Hd _ (fixed_digits_are_digits _ _)).
  reflexivity.
Qed.

Lemma format_fixed_cons (k : nat) (q : Q) :
  exists c rest,
    format_fixed k q = String c rest /\ numeric_char c = true.
Proof.
  assert (Hn := format_fixed_numeric k q).
  unfold format_fixed in *.
  destruct (dec_string_cons (scaled_round k q / 10 ^ Z.of_nat k))
    as (c & rest & Hc & _).
  rewrite Hc in *.
  destruct (Qnum q <? 0); cbn [append] in *;
    (eexists; eexists; split; [reflexivity|]);
    cbn [string_forall] in Hn; apply andb_true_iff in Hn; apply Hn.
Qed.

Lemma numeric_is_data (c : ascii) (rest : string) :
  numeric_char c = true -> is_data_line (String c rest) = true.
Proof. each_ascii c. Qed.

Lemma parse_line_body (a f : Q) :
  parse_line (line_body (LFin a) (LFin f))
  = Some (round_decimals 1 a, round_decimals 4 f).
Proof.
  unfold parse_line, line_body. cbn [format_f].
  change ("|" ++ format_fixed 4 f) with (String "|" (format_fixed 4 f)).
  rewrite split_on_first
    by (apply (string_forall_impl numeric_char);
        [exact numeric_not_pipe | apply format_fixed_numeric]).
  rewrite split_on_lacks
    by (apply (string_forall_impl numeric_char);
        [exact numeric_not_pipe | apply format_fixed_numeric]).
  rewrite (parse_format_fixed 0 a), (parse_format_fixed 3 f). reflexivity.
Qed.

Lemma line_body_is_data (a f : Q) :
  is_data_line (line_body (LFin a) (LFin f)) = true.
Proof.
  unfold line_body. cbn [format_f].
  destruct (format_fixed_cons 1 a) as (c & rest & Hc & Hn).
  rewrite Hc. cbn [append]. apply numeric_is_data. exact Hn.
Qed.

Lemma line_body_lacks_newline (a f : Q) :
  lacks newline (line_body (LFin a) (LFin f)) = true.
Proof.
  unfold line_body. cbn [format_f].
  rewrite !lacks_append.
  assert (H : forall k q, lacks newline (format_fixed k q) = true).
  { intros k q. apply (string_forall_impl numeric_char);
      [exact numeric_not_newline | apply format_fixed_numeric]. }
  rewrite !H. reflexivity.
Qed.

(** *** The file *)

Lemma split_write_lines (lines : list string) :
  Forall (fun l => lacks newline l = true) lines ->
  split_on newline (write_lines lines) = (lines ++ [""])%list.
Proof.
  unfold write_lines.
  induction 1 as [|l lines Hl _ IH]; [reflexivity|].
  cbn [map fold_right]. unfold end_line at 1.
  rewrite string_app_assoc. cbn [append].
  rewrite split_on_first by exact Hl. rewrite IH. reflexivity.
Qed.

Lemma comment_line_lacks_newline (l : string) :
  comment_line l = true -> lacks newline l = true.
Proof.
  destruct l as [|c l]; [discriminate|].
  unfold comment_line. each_ascii c. intros H; exact H.
Qed.

Lemma comment_line_not_data (l : string) :
  comment_line l = true -> is_data_line l = false.
Proof.
  destruct l as [|c l]; [discriminate|].
  unfold comment_line, is_data_line. each_ascii c.
Qed.

Lemma parse_lines_header (header rest : list string) :
  Forall (fun l => comment_line l = true) header ->
  parse_lines (header ++ rest)%list = parse_lines rest.
Proof.
  induction 1 as [|l header Hl _ IH]; [reflexivity|].
  cbn [List.app parse_lines].
  rewrite (comment_line_not_data l Hl). exact IH.
Qed.

Lemma parse_lines_bodies (samples : list (Q * Q)) :
  parse_lines
    (map (fun p => line_body (LFin (fst p)) (LFin (snd p))) samples
     ++ [""])%list
  = Some (map (fun p => (round_decimals 1 (fst p), round_decimals 4 (snd p)))
              samples).
Proof.
  induction samples as [|[a f] samples IH]; [reflexivity|].
  cbn [map List.app parse_lines fst snd].
  rewrite line_body_is_data, parse_line_body, IH. reflexivity.
Qed.

Lemma combine_finite (angles forces : list Q) :
  combine (map LFin angles) (map LFin forces)
  = map (fun p => (LFin (fst p), LFin (snd p))) (combine angles forces).
Proof.
  revert forces. induction angles as [|a angles IH]; intros [|f forces];
    cbn [map combine]; try reflexivity.
  rewrite IH. reflexivity.
Qed.

(** *** What "rounded" means *)

(** [scaled_round] is a nearest integer of [|q| * 10^k]. *)
Lemma scaled_round_nearest (k : nat) (q : Q) :
  2 * Z.abs (scaled_round k q * Z.pos (Qden q)
             - Z.abs (Qnum q) * 10 ^ Z.of_nat k)
  <= Z.pos (Qden q).
Proof.
  unfold scaled_round.
  set (num := Z.abs (Qnum q) * 10 ^ Z.of_nat k).
  set (den := Z.pos (Qden q)).
  assert (Hd := Z.div_mod num den ltac:(subst den; lia)).
  assert (Hm := Z.mod_pos_bound num den ltac:(subst den; lia)).
  assert (Hlow : num / den * den - num = - (num mod den)) by lia.
  assert (Hup : (num / den + 1) * den - num = den - num mod den) by lia.
  destruct (Z.compare_spec (2 * (num mod den)) den) as [He | Hl | Hg];
    [destruct (Z.even (num / den))| |];
    rewrite ?Hlow, ?Hup; lia.
Qed.

(** The value read back is within half a unit of the last printed
    digit of the value written. *)
Lemma round_decimals_nearest (k : nat) (q : Q) :
  (Qabs (round_decimals k q - q)
   <= 1 # (2 * Z.to_pos (10 ^ Z.of_nat k)))%Q.
Proof.
  assert (Hs : 0 < 10 ^ Z.of_nat k) by (apply Z.pow_pos_nonneg; lia).
  assert (Hn := scaled_round_nearest k q).
  apply Qabs_Qle_condition.
  unfold round_decimals, Qle, Qminus, Qplus, Qopp.
  cbn [Qnum Qden].
  rewrite !Pos2Z.inj_mul, !Z2Pos.id by exact Hs.
  destruct q as [n d]. cbn [Qnum Qden] in *.
  set (m := scaled_round k (n # d)) in *.
  set (scale := 10 ^ Z.of_nat k) in *.
  clearbody m scale.
  destruct (Z.ltb_spec n 0) as [Hneg | Hpos].
  - rewrite (Z.abs_neq n) in Hn by lia.
    assert (Hy : - Z.pos d <= 2 * (m * Z.pos d - - n * scale) <= Z.pos d)
      by lia.
    clear Hn. split; nia.
  - rewrite (Z.abs_eq n) in Hn by lia.
    assert (Hy : - Z.pos d <= 2 * (m * Z.pos d - n * scale) <= Z.pos d)
      by lia.
    clear Hn. split; nia.
Qed.

(** On a tie [scaled_round] is even. *)
Lemma scaled_round_tie_even (k : nat) (q : Q) :
  2 * Z.abs (scaled_round k q * Z.pos (Qden q)
             - Z.abs (Qnum q) * 10 ^ Z.of_nat k)
  = Z.pos (Qden q) ->
  Z.even (scaled_round k q) = true.
Proof.
  unfold scaled_round.
  set (num := Z.abs (Qnum q) * 10 ^ Z.of_nat k).
  set (den := Z.pos (Qden q)).
  assert (Hd := Z.div_mod num den ltac:(subst den; lia)).
  assert (Hm := Z.mod_pos_bound num den ltac:(subst den; lia)).
  assert (Hlow : num / den * den - num = - (num mod den)) by lia.
  assert (Hup : (num / den + 1) * den - num = den - num mod den) by lia.
  destruct (Z.compare_spec (2 * (num mod den)) den) as [He | Hl | Hg].
  - destruct (Z.even (num / den)) eqn:Hev; [intros _; exact Hev|].
    intros _. rewrite Z.even_add, Hev. reflexivity.
  - rewrite Hlow. lia.
  - rewrite Hup. lia.
Qed.

(** The value read back is the value written, rounded in the sense of
    the specification. *)
Lemma round_decimals_rounded_to (k : nat) (q : Q) :
  rounded_to k q (round_decimals k q).
Proof.
  exists (if Qnum q <? 0 then - scaled_round k q else scaled_round k q).
  split; [reflexivity|]. split; [apply round_decimals_nearest|].
  assert (Hs : 0 < 10 ^ Z.of_nat k) by (apply Z.pow_pos_nonneg; lia).
  assert (Ht := scaled_round_tie_even k q).
  unfold round_decimals, Qeq, Qabs, Qminus, Qplus, Qopp.
  cbn [Qnum Qden].
  rewrite !Pos2Z.inj_mul, !Z2Pos.id by exact Hs.
  destruct q as [n d]. cbn [Qnum Qden] in *.
  set (m := scaled_round k (n # d)) in *.
  set (scale := 10 ^ Z.of_nat k) in *.
  clearbody m scale.
  destruct (Z.ltb_spec n 0) as [Hneg | Hpos]; intros Htie.
  - rewrite Z.even_opp. apply Ht.
    rewrite (Z.abs_neq n) by lia.
    replace (m * Z.pos d - - n * scale)
      with (- (- m * Z.pos d + - n * scale)) by ring.
    rewrite Z.abs_opp. nia.
  - apply Ht.
    rewrite (Z.abs_eq n) by lia.
    replace (m * Z.pos d - n * scale)
      with (m * Z.pos d + - n * scale) by ring.
    nia.
Qed.

Lemma rounded_samples (samples : list (Q * Q)) :
  Forall2
    (fun written read =>
       rounded_to 1 (fst written) (fst read)
       /\ rounded_to 4 (snd written) (snd read))
    samples
    (map (fun p => (round_decimals 1 (fst p), round_decimals 4 (snd p)))
         samples).
Proof.
  induction samples as [|p samples IH]; constructor; [|exact IH].
  split; apply round_decimals_rounded_to.
Qed.

Lemma parse_lut_text (header : list string) (angles forces : list Q) :
  Forall (fun l => comment_line l = true) header ->
  parse_lut (lut_text header (map LFin angles) (map LFin forces))
  = Some (map (fun p => (round_decimals 1 (fst p), round_decimals 4 (snd p)))
              (combine angles forces)).
Proof.
  intros Hh. unfold parse_lut, lut_text.
  rewrite combine_finite, map_map. cbn [fst snd].
  rewrite split_write_lines.
  - rewrite <- app_assoc, parse_lines_header by exact Hh.
    apply parse_lines_bodies.
  - apply Forall_app. split.
    + eapply Forall_impl; [|exact Hh]. apply comment_line_lacks_newline.
    + apply Forall_forall. intros l Hin. apply in_map_iff in Hin.
      destruct Hin as ([a f] & <- & _). apply line_body_lacks_newline.
Qed.

(** C9.  Writing the header comment lines (each one begins with a
    semicolon) and one line per sample, the angle with 1 decimal, a
    pipe and the force with 4 decimals, and then reading the text back,
    every data line split on the pipe, gives one sample per sample
    written, in the order written: the angle read is the angle written
    rounded to 1 decimal and the force read is the force written
    rounded to 4 decimals. *)
Theorem lut_round_trip (header : list string) (angles forces : list Q) :
  Forall (fun l => comment_line l = true) header ->
  exists samples : list (Q * Q),
    parse_lut (lut_text header (map LFin angles) (map LFin forces))
    = Some samples
    /\ Forall2
         (fun written read =>
            rounded_to 1 (fst written) (fst read)
            /\ rounded_to 4 (snd written) (snd read))
         (combine angles forces) samples.
Proof.
  intros Hh. eexists. split.
  - apply parse_lut_text. exact Hh.
  - apply rounded_samples.
Qed.

Lemma custom_header_is_comment :
  Forall (fun l => comment_line l = true) custom_header.
Proof. repeat constructor. Qed.

Lemma chatter_header_is_comment (name : string) :
  lacks newline name = true ->
  Forall (fun l => comment_line l = true) (chatter_header name).
Proof.
  intros Hn. unfold chatter_header.
  constructor; [|repeat constructor].
  cbn [append comment_line]. unfold lacks in *.
  cbn [string_forall Ascii.eqb Bool.eqb negb andb newline]. exact Hn.
Qed.

(** Three samples of the custom file: 0.375 and 0.00067138671875 are
    printed rounded up, and the half-way values 0.25, 0.75, 0.03125 and
    0.09375 go to the even digit. *)
Lemma lut_round_trip_custom_file :
  exists samples : list (Q * Q),
    parse_lut
      (lut_text custom_header
         (map LFin [3 # 8; 1 # 4; 3 # 4]%Q)
         (map LFin [11 # 16384; 1 # 32; 3 # 32]%Q))
    = Some samples
    /\ samples = [ (4 # 10, 7 # 10000); (2 # 10, 312 # 10000);
                   (8 # 10, 938 # 10000) ]%Q
    /\ Forall2
         (fun written read =>
            rounded_to 1 (fst written) (fst read)
            /\ rounded_to 4 (snd written) (snd read))
         (combine [3 # 8; 1 # 4; 3 # 4]%Q [11 # 16384; 1 # 32; 3 # 32]%Q)
         samples.
Proof.
  destruct (lut_round_trip custom_header [3 # 8; 1 # 4; 3 # 4]%Q
              [11 # 16384; 1 # 32; 3 # 32]%Q custom_header_is_comment)
    as (samples & Hparse & Hround).
  exists samples. split; [exact Hparse|]. split; [|exact Hround].
  rewrite parse_lut_text in Hparse by exact custom_header_is_comment.
  injection Hparse as <-. reflexivity.
Defined.

End LutFacts.

(* ================================================================= *)
(** * Further properties of the embedded code *)

(** ** The shape of the five-segment curve *)

(** Closed forms of the two segments that go through
    [cornering_stiffness]. *)
Lemma linear_region_closed (pg a : R) : linear_region pg a = pg * a / 6.
Proof.
  assert (Hpi := PI_RGT_0).
  unfold linear_region, cornering_stiffness_of, radians.
  decimals. field. lra.
Qed.

Lemma transition_region_closed (pg a : R) :
  transition_region pg (cornering_stiffness_of pg) a
  = pg / 3 + (pg - pg / 3)
             * (3 * ((a - 2) / 3.5) ^ 2 - 2 * ((a - 2) / 3.5) ^ 3).
Proof.
  assert (Hpi := PI_RGT_0).
  unfold transition_region, cornering_stiffness_of, radians.
  decimals. field. lra.
Qed.

(** The smoothstep factor on its interval. *)
Lemma smoothstep_bounds (t : R) :
  0 <= t <= 1 -> 0 <= 3 * t ^ 2 - 2 * t ^ 3 <= 1.
Proof.
  intros [H0 H1].
  assert (Hlo : 0 <= t * t * (3 - 2 * t)).
  { apply Rmult_le_pos; [apply Rmult_le_pos|]; lra. }
  assert (Hhi : 0 <= (1 - t) * (1 - t) * (1 + 2 * t)).
  { apply Rmult_le_pos; [apply Rmult_le_pos|]; lra. }
  split; nra.
Qed.

Lemma smoothstep_lt_1 (t : R) : 0 <= t < 1 -> 3 * t ^ 2 - 2 * t ^ 3 < 1.
Proof.
  intros Ht.
  assert (H : 0 < (1 - t) * (1 - t) * (1 + 2 * t)).
  { apply Rmult_lt_0_compat; [apply Rmult_lt_0_compat|]; lra. }
  nra.
Qed.

Lemma smoothstep_increasing (s t : R) :
  0 <= s -> s < t -> t <= 1 ->
  3 * s ^ 2 - 2 * s ^ 3 < 3 * t ^ 2 - 2 * t ^ 3.
Proof.
  intros Hs Hst Ht.
  assert (H : 0 < (t - s) * (3 * (s + t) - 2 * (s * s + s * t + t * t))).
  { apply Rmult_lt_0_compat; [lra | nra]. }
  nra.
Qed.

Lemma transition_progress_range (a : R) :
  2 < a <= 5.5 -> 0 < (a - 2) / 3.5 <= 1.
Proof. intros Ha. lra. Qed.

(** In the transition the force lies strictly above the value reached
    at 2.0 degrees and at most at [peak_grip]. *)
Lemma transition_region_range (pg a : R) :
  0 < pg -> 2 < a <= 5.5 ->
  pg / 3 < transition_region pg (cornering_stiffness_of pg) a <= pg.
Proof.
  intros Hpg Ha. rewrite transition_region_closed.
  assert (Ht := transition_progress_range a Ha).
  set (t := (a - 2) / 3.5) in *.
  assert (Hb := smoothstep_bounds t ltac:(lra)).
  assert (Hi := smoothstep_increasing 0 t ltac:(lra) ltac:(lra) ltac:(lra)).
  replace (3 * 0 ^ 2 - 2 * 0 ^ 3) with 0 in Hi by ring.
  set (s := 3 * t ^ 2 - 2 * t ^ 3) in *.
  split; nra.
Qed.


Lemma curve_value_range (pg a : R) :
  0 < pg ->
  (0 <= a -> 0 <= curve_value pg a)
  /\ curve_value pg a <= pg
  /\ (curve_value pg a = pg <-> a = 5.5).
Proof.
  intros Hpg.
  destruct (Rle_dec a 2) as [H2 | H2].
  { rewrite curve_value_linear by exact H2. rewrite linear_region_closed.
    repeat split; try intros; try nra. }
  destruct (Rle_dec a 5.5) as [H5 | H5].
  { rewrite curve_value_transition by lra.
    assert (Hr := transition_region_range pg a Hpg ltac:(lra)).
    repeat split; try intros; try lra.
    - destruct (Req_dec_T a 5.5) as [He | Hne]; [exact He | exfalso].
      rewrite transition_region_closed in H.
      assert (Ht := transition_progress_range a ltac:(lra)).
      assert (Hs := smoothstep_lt_1 ((a - 2) / 3.5) ltac:(lra)).
      nra.
    - subst a.
      apply (proj1 (proj2 (segment_values_at_boundaries pg))). }
  destruct (Rle_dec a 8) as [H8 | H8].
  { rewrite curve_value_plateau by lra. unfold plateau_region.
    repeat split; try intros; try nra. }
  destruct (Rle_dec a 12) as [H12 | H12].
  { rewrite curve_value_moderate by lra. unfold moderate_falloff.
    repeat split; try intros; try nra. }
  rewrite curve_value_steep by lra.
  destruct (Rle_dec a 20) as [H20 | H20].
  - rewrite steep_falloff_unclamped by exact H20.
    repeat split; try intros; try nra.
  - rewrite steep_falloff_floor by lra.
    repeat split; try intros; try nra.
Qed.




(** ** The builder as a whole *)


(** The curve is proportional to the peak grip. *)
Lemma curve_value_scale (c pg a : R) :
  curve_value (c * pg) a = c * curve_value pg a.
Proof.
  assert (Hr := radians_6_neq_0).
  unfold curve_value, linear_region, transition_region, plateau_region,
    moderate_falloff, steep_falloff, cornering_stiffness_of.
  destruct (Rle_dec a 2.0); [field; exact Hr|].
  destruct (Rle_dec a 5.5); [field; split; [lra | exact Hr]|].
  destruct (Rle_dec a 8.0); [ring|].
  destruct (Rle_dec a 12.0); [field; lra | ring].
Qed.








(** ** The table of a built curve *)

Lemma normalize_forces_nonzero_peak (forces : list R) (peak : R) :
  np_max forces = Ok peak -> peak <> 0 ->
  normalize_forces forces = Ok (map (fun f => Fin (f / peak)) forces).
Proof.
  intros Hp Hne. rewrite (normalize_forces_peak _ _ Hp). f_equal.
  apply map_ext. intros f. unfold np_div.
  destruct (Req_dec_T peak 0); [contradiction | reflexivity].
Qed.

Lemma normalize_built_curve
  (angles forces : list R) (dy_ref fz0 ls_exp vertical_load : R) :
  0 < dy_ref -> 0 < fz0 -> 0 < vertical_load ->
  In 5.5 angles ->
  create_realistic_tire_curve angles dy_ref fz0 ls_exp vertical_load
  = Ok forces ->
  normalize_forces forces
  = Ok (map (fun a => Fin (curve_value 1 a)) angles).
Proof.
  intros Hd Hf Hl Hin Hb.
  apply create_realistic_tire_curve_returned in Hb; [|assumption..].
  apply curve_loop_values in Hb.
  set (pg := dy_ref * Rpower (vertical_load / fz0) ls_exp) in *.
  assert (Hpg : 0 < pg)
    by (apply Rmult_lt_0_compat; [exact Hd | apply exp_pos]).
  assert (Hmax : np_max forces = Ok pg).
  { apply np_max_is; subst forces.
    - apply in_map_iff. exists 5.5. split; [|exact Hin].
      apply curve_value_range; [exact Hpg | reflexivity].
    - intros f Hf'. apply in_map_iff in Hf'. destruct Hf' as (a & <- & _).
      apply curve_value_range. exact Hpg. }
  rewrite (normalize_forces_nonzero_peak forces pg Hmax) by lra.
  subst forces. rewrite map_map. f_equal.
  apply map_ext. intros a. f_equal.
  replace pg with (pg * 1) at 1 by ring.
  rewrite curve_value_scale. field. lra.
Qed.



(** ** Load sensitivity *)

Lemma ln_sign (q : R) :
  0 < q -> (1 <= q -> 0 <= ln q) /\ (q <= 1 -> ln q <= 0).
Proof.
  intros Hq. rewrite <- ln_1. split; intros H.
  - destruct H as [H | <-]; [apply Rlt_le, ln_increasing; lra | lra].
  - destruct H as [H | ->]; [apply Rlt_le, ln_increasing; lra | lra].
Qed.

Lemma exp_sign (x : R) : (0 <= x -> 1 <= exp x) /\ (x <= 0 -> exp x <= 1).
Proof.
  rewrite <- exp_0. split; intros H.
  - destruct H as [H | <-]; [apply Rlt_le, exp_increasing; exact H | lra].
  - destruct H as [H | ->]; [apply Rlt_le, exp_increasing; exact H | lra].
Qed.

(** On which side of 1 a real power lies. *)
Lemma Rpower_side (q e : R) :
  0 < q ->
  ((q <= 1 /\ 0 <= e) \/ (1 <= q /\ e <= 0) -> Rpower q e <= 1)
  /\ ((1 <= q /\ 0 <= e) \/ (q <= 1 /\ e <= 0) -> 1 <= Rpower q e).
Proof.
  intros Hq. destruct (ln_sign q Hq) as [Hup Hdown].
  unfold Rpower. split; intros H.
  - apply exp_sign. destruct H as [[H1 H2] | [H1 H2]].
    + assert (Hl := Hdown H1). nra.
    + assert (Hl := Hup H1). nra.
  - apply exp_sign. destruct H as [[H1 H2] | [H1 H2]].
    + assert (Hl := Hup H1). nra.
    + assert (Hl := Hdown H1). nra.
Qed.

Lemma quotient_side (load fz0 : R) :
  0 < fz0 -> 0 < load ->
  0 < load / fz0
  /\ (load <= fz0 -> load / fz0 <= 1)
  /\ (fz0 <= load -> 1 <= load / fz0).
Proof.
  intros Hf Hl.
  assert (Hi : 0 < / fz0) by (apply Rinv_0_lt_compat; exact Hf).
  assert (H1 : fz0 * / fz0 = 1) by (field; lra).
  unfold Rdiv. repeat split; try intros H; nra.
Qed.

(** X6 (load sensitivity).  For a positive reference load the scaling
    factor is exactly 1 at the reference load, whatever the exponent.
    For a positive load, a load below the reference with a non-negative
    exponent, or above it with a non-positive exponent, gives a factor
    between 0 and 1, without any exception; in the two other cases the
    factor is at least 1 whenever the call returns one. *)
Theorem load_scaling_around_reference (fz0 ls_exp load : R) :
  0 < fz0 -> 0 < load ->
  calculate_load_scaling fz0 fz0 ls_exp = Ok (PyFloat 1)
  /\ ((load <= fz0 /\ 0 <= ls_exp) \/ (fz0 <= load /\ ls_exp <= 0) ->
      exists s,
        calculate_load_scaling load fz0 ls_exp = Ok (PyFloat s)
        /\ 0 <= s <= 1)
  /\ ((fz0 <= load /\ 0 <= ls_exp) \/ (load <= fz0 /\ ls_exp <= 0) ->
      forall s,
        calculate_load_scaling load fz0 ls_exp = Ok (PyFloat s) ->
        1 <= s).
Proof.
  intros Hf Hl.
  assert (Hbig := float_overflow_large).
  destruct (quotient_side load fz0 Hf Hl) as (Hq & Hbelow & Habove).
  destruct (Rpower_side (load / fz0) ls_exp Hq) as [Hle Hge].
  split; [|split].
  - rewrite calculate_load_scaling_pos.
    + replace (fz0 / fz0) with 1 by (field; lra).
      rewrite Rpower_1_l. reflexivity.
    + replace (fz0 / fz0) with 1 by (field; lra). lra.
    + lra.
    + replace (fz0 / fz0) with 1 by (field; lra).
      rewrite Rpower_1_l. lra.
  - intros Hcase.
    assert (Hs : Rpower (load / fz0) ls_exp <= 1).
    { apply Hle. destruct Hcase as [[H1 H2] | [H1 H2]]; [left | right];
        (split; [auto | exact H2]). }
    exists (Rpower (load / fz0) ls_exp).
    split; [apply calculate_load_scaling_pos; lra|].
    split; [apply Rlt_le, Rpower_pos | exact Hs].
  - intros Hcase s Hret.
    rewrite calculate_load_scaling_pos_result in Hret by lra.
    apply float_result_returned in Hret. destruct Hret as [Hret _].
    injection Hret as ->.
    apply Hge. destruct Hcase as [[H1 H2] | [H1 H2]]; [left | right];
      (split; [auto | exact H2]).
Qed.

Lemma load_scaling_around_reference_example :
  (exists s,
     calculate_load_scaling 2000 2494 0.8119 = Ok (PyFloat s)
     /\ 0 <= s <= 1)
  /\ calculate_load_scaling 2494 2494 0.8119 = Ok (PyFloat 1).
Proof.
  destruct (load_scaling_around_reference 2494 0.8119 2000
              ltac:(lra) ltac:(lra)) as (Hone & Hbelow & _).
  split; [apply Hbelow; left; lra | exact Hone].
Defined.

(** ** The chatter overlay, continued *)

Section ChatterShape.

Variables chatter_start chatter_intensity chatter_frequency : R.

Local Abbreviation sample := (chatter_sample chatter_start chatter_intensity
                                   chatter_frequency).

(** The progress of a sample at or above the start angle: finite unless
    start and sample are both 20.0. *)
Lemma chatter_progress_finite (angle : R) :
  angle >= chatter_start ->
  ~ (chatter_start = 20 /\ angle = 20) ->
  exists p,
    py_min (np_div (angle - chatter_start) (20.0 - chatter_start)) (Fin 1.0)
    = Fin p
    /\ p <= 1
    /\ (chatter_start < 20 -> 0 <= p)
    /\ (angle = chatter_start -> p = 0).
Proof.
  intros Hge Hnot. unfold np_div.
  destruct (Req_dec_T (20.0 - chatter_start) 0) as [Hz | Hnz].
  - assert (Hgt : 0 < angle - chatter_start).
    { destruct (Req_dec_T angle 20); [exfalso; apply Hnot; lra | lra]. }
    unfold np_sign. destruct (Rlt_dec 0 (angle - chatter_start)); [|lra].
    exists 1.0. repeat split; try reflexivity; intros; lra.
  - unfold py_min. cbn [np_ltb].
    destruct (Rlt_dec 1.0 ((angle - chatter_start) / (20.0 - chatter_start)))
      as [Hlt | Hle].
    + exists 1.0. repeat split; try lra.
      intros ->. exfalso.
      replace ((chatter_start - chatter_start) / (20.0 - chatter_start))
        with 0 in Hlt by (field; exact Hnz).
      lra.
    + eexists. repeat split; try lra.
      * intros Hs. apply Rmult_le_pos; [lra|].
        apply Rlt_le, Rinv_0_lt_compat. lra.
      * intros ->. field. exact Hnz.
Qed.

(** The value stored for a sample at or above the start angle whose
    progress is the finite [p]. *)
Lemma chatter_sample_at_progress (angle base_force p : R) :
  angle >= chatter_start ->
  py_min (np_div (angle - chatter_start) (20.0 - chatter_start)) (Fin 1.0)
  = Fin p ->
  sample angle base_force
  = Fin (Rmax
           (base_force
            * (1 + (sin (angle * chatter_frequency * 8) * 0.6
                    + sin (angle * chatter_frequency * 3) * 0.3
                      * cos (angle * 0.7)
                    + sin (angle * chatter_frequency * 1) * 0.1
                      * sin (angle * 1.3))
                   * chatter_intensity * p
               + (sin (angle * 13.7) * 0.1 + cos (angle * 7.3) * 0.05) * p))
           (base_force * 0.1)).
Proof.
  intros Hge Hp. unfold chatter_sample.
  destruct (Rge_dec angle chatter_start); [|contradiction].
  rewrite Hp. cbn [np_mul np_add]. unfold py_max, Rmax. cbn [np_ltb].
  match goal with
  | |- context [Rlt_dec ?x ?y] =>
      destruct (Rlt_dec x y), (Rle_dec x y); try reflexivity; try lra
  end.
  f_equal. lra.
Qed.




Lemma chatter_sample_finite (angle base_force : R) :
  ~ (chatter_start = 20 /\ angle = 20) ->
  exists force, sample angle base_force = Fin force.
Proof.
  intros Hnot. destruct (Rge_dec angle chatter_start) as [Hge | Hlt].
  - destruct (chatter_progress_finite angle Hge Hnot) as (p & Hp & _).
    rewrite (chatter_sample_at_progress angle base_force p Hge Hp).
    eexists. reflexivity.
  - exists base_force. apply chatter_sample_below. lra.
Qed.

Lemma chatter_sample_nan (base_force : R) :
  chatter_start = 20 -> sample 20 base_force = NaN.
Proof.
  intros Hs. unfold chatter_sample.
  destruct (Rge_dec 20 chatter_start); [|lra].
  unfold np_div.
  destruct (Req_dec_T (20.0 - chatter_start) 0); [|lra].
  unfold np_sign.
  destruct (Rlt_dec 0 (20 - chatter_start)); [lra|].
  destruct (Rlt_dec (20 - chatter_start) 0); [lra|].
  reflexivity.
Qed.


Lemma chatter_sample_onset (base_force : R) :
  chatter_start <> 20 -> 0 <= base_force ->
  sample chatter_start base_force = Fin base_force.
Proof.
  intros Hs Hb.
  destruct (chatter_progress_finite chatter_start ltac:(lra) ltac:(lra))
    as (p & Hp & _ & _ & Hp0).
  rewrite (Hp0 eq_refl) in Hp.
  rewrite (chatter_sample_at_progress chatter_start base_force 0
             ltac:(lra) Hp).
  f_equal. rewrite Rmax_left by lra. ring.
Qed.

End ChatterShape.

(** What [create_chatter_tire_curve] returns once the builder has
    returned: the sample of every angle and its base force. *)
Lemma create_chatter_tire_curve_samples
  (chatter_start chatter_intensity chatter_frequency : R)
  (angles base : list R) (dy_ref fz0 ls_exp vertical_load : R) :
  create_realistic_tire_curve angles dy_ref fz0 ls_exp vertical_load
  = Ok base ->
  List.length base = List.length angles
  /\ create_chatter_tire_curve chatter_start chatter_intensity
       chatter_frequency angles dy_ref fz0 ls_exp vertical_load
     = Ok (map (fun p => chatter_sample chatter_start chatter_intensity
                           chatter_frequency (fst p) (snd p))
               (combine angles base)).
Proof.
  intros Hbase.
  assert (Hlen := create_realistic_tire_curve_length _ _ _ _ _ _ Hbase).
  split; [exact Hlen|].
  unfold create_chatter_tire_curve. rewrite Hbase. simpl.
  apply chatter_loop_same_length. symmetry. exact Hlen.
Qed.

Lemma nth_error_combine_inv (angles base : list R) (i : nat) (a : R) :
  List.length base = List.length angles ->
  nth_error angles i = Some a ->
  exists b, nth_error base i = Some b.
Proof.
  intros Hlen Ha.
  destruct (nth_error base i) as [b|] eqn:Hb; [eauto|].
  apply nth_error_None in Hb.
  assert (Hi : (i < List.length angles)%nat).
  { apply nth_error_Some. rewrite Ha. discriminate. }
  lia.
Qed.

(** X7 (propagation).  [create_chatter_tire_curve] fails exactly as the
    builder does, with the builder's exception, and otherwise returns a
    series of the length of the angle series: the overlay adds no
    failure of its own. *)
Theorem create_chatter_tire_curve_propagates
  (chatter_start chatter_intensity chatter_frequency : R)
  (angles : list R) (dy_ref fz0 ls_exp vertical_load : R) :
  match create_realistic_tire_curve angles dy_ref fz0 ls_exp vertical_load
  with
  | Raise e =>
      create_chatter_tire_curve chatter_start chatter_intensity
        chatter_frequency angles dy_ref fz0 ls_exp vertical_load = Raise e
  | Ok base =>
      exists out,
        create_chatter_tire_curve chatter_start chatter_intensity
          chatter_frequency angles dy_ref fz0 ls_exp vertical_load = Ok out
        /\ List.length out = List.length angles
  end.
Proof.
  destruct (create_realistic_tire_curve angles dy_ref fz0 ls_exp
              vertical_load) as [base | e] eqn:Hb.
  - destruct (create_chatter_tire_curve_samples chatter_start
                chatter_intensity chatter_frequency angles base
                dy_ref fz0 ls_exp vertical_load Hb) as (Hlen & Hout).
    eexists. split; [exact Hout|].
    rewrite length_map, length_combine, Hlen. apply Nat.min_id.
  - unfold create_chatter_tire_curve. rewrite Hb. reflexivity.
Qed.





(** X10 (onset).  With positive parameters and a start angle other than
    20.0, a non-negative sample that is exactly the start angle keeps
    its base force: the overlay sets in with amplitude zero. *)
Theorem create_chatter_tire_curve_onset
  (chatter_start chatter_intensity chatter_frequency : R)
  (angles base : list R) (dy_ref fz0 ls_exp vertical_load : R) :
  0 < dy_ref -> 0 < fz0 -> 0 < vertical_load ->
  chatter_start <> 20 -> 0 <= chatter_start ->
  create_realistic_tire_curve angles dy_ref fz0 ls_exp vertical_load
  = Ok base ->
  exists out,
    create_chatter_tire_curve chatter_start chatter_intensity
      chatter_frequency angles dy_ref fz0 ls_exp vertical_load = Ok out
    /\ forall (i : nat) (b : R),
         nth_error angles i = Some chatter_start ->
         nth_error base i = Some b ->
         nth_error out i = Some (Fin b).
Proof.
  intros Hd Hf Hl Hs Hpos Hb.
  destruct (create_chatter_tire_curve_samples chatter_start
              chatter_intensity chatter_frequency angles base
              dy_ref fz0 ls_exp vertical_load Hb) as (Hlen & Hout).
  eexists. split; [exact Hout|].
  intros i b Ha Hbi.
  rewrite nth_error_map,
    (nth_error_combine angles base i chatter_start b Ha Hbi).
  cbn [option_map fst snd]. f_equal.
  apply chatter_sample_onset; [exact Hs|].
  apply create_realistic_tire_curve_returned in Hb; [|assumption..].
  apply curve_loop_values in Hb. subst base.
  rewrite nth_error_map, Ha in Hbi. injection Hbi as <-.
  apply curve_value_range; [|exact Hpos].
  apply Rmult_lt_0_compat; [exact Hd | apply exp_pos].
Qed.

Lemma create_chatter_tire_curve_onset_example :
  exists out,
    create_chatter_tire_curve 10 0.15 2.0 [0; 10] 1.26 2494 0.8119 2494
    = Ok out
    /\ nth_error out 1
       = Some (Fin (curve_value (1.26 * Rpower (2494 / 2494) 0.8119) 10)).
Proof.
  assert (Hb :
    create_realistic_tire_curve [0; 10] 1.26 2494 0.8119 2494
    = Ok (map (curve_value (1.26 * Rpower (2494 / 2494) 0.8119)) [0; 10])).
  { rewrite create_realistic_tire_curve_valid by valid_parameters.
    apply curve_loop_unbound_ok. simpl. pick_branch; tauto. }
  destruct (create_chatter_tire_curve_onset 10 0.15 2.0
              [0; 10] _ 1.26 2494 0.8119 2494
              ltac:(lra) ltac:(lra) ltac:(lra) ltac:(lra) ltac:(lra) Hb)
    as (out & Hout & Hnth).
  exists out. split; [exact Hout|].
  apply (Hnth 1%nat); reflexivity.
Defined.

(** ** The brush model, continued *)

Lemma radians_increasing (a b : R) : a < b -> radians a < radians b.
Proof.
  intros Hab. unfold radians.
  apply Rmult_lt_compat_r; [|exact Hab].
  apply Rdiv_lt_0_compat; [exact PI_RGT_0 | lra].
Qed.

Lemma exp_neg_lt_1 (x : R) : x < 0 -> exp x < 1.
Proof. intros Hx. rewrite <- exp_0. apply exp_increasing. exact Hx. Qed.

(** X11 (brush shape).  With [dy_ref > 0], [friction_limit_angle > 0],
    [falloff_level] in [0, 1) and [falloff_speed > 0] the brush model
    stores a force that does not fall as the angle grows up to the
    limit angle, that never exceeds the peak
    [dy_ref * radians friction_limit_angle], and that stays at or above
    [peak * falloff_level] above the limit angle. *)
Theorem ac_tire_model_shape
  (dy_ref friction_limit_angle falloff_level falloff_speed a1 a2 : R) :
  0 < dy_ref -> 0 < friction_limit_angle ->
  0 <= falloff_level < 1 -> 0 < falloff_speed ->
  a1 < a2 ->
  let peak := dy_ref * radians friction_limit_angle in
  exists v1 v2,
    ac_tire_model dy_ref friction_limit_angle falloff_level falloff_speed
      [a1; a2] = [Fin v1; Fin v2]
    /\ (a2 <= friction_limit_angle -> v1 <= v2)
    /\ v1 <= peak /\ v2 <= peak
    /\ (friction_limit_angle < a1 ->
        peak * falloff_level <= v1 /\ peak * falloff_level <= v2).
Proof.
  intros Hd Hl [Hf0 Hf1] Hs H12 peak.
  set (tail := fun a =>
    peak * (falloff_level
            + (1 - falloff_level)
              * exp (- falloff_speed * (a - friction_limit_angle)
                     / friction_limit_angle))).
  assert (Hpeak : 0 < peak).
  { apply Rmult_lt_0_compat; [exact Hd | apply radians_pos; exact Hl]. }
  assert (Harg : forall a, friction_limit_angle < a ->
            - falloff_speed * (a - friction_limit_angle)
            / friction_limit_angle < 0).
  { intros a Ha.
    replace (- falloff_speed * (a - friction_limit_angle)
             / friction_limit_angle)
      with (- (falloff_speed * (a - friction_limit_angle)
               / friction_limit_angle)) by (field; lra).
    assert (0 < falloff_speed * (a - friction_limit_angle)
                / friction_limit_angle).
    { apply Rdiv_lt_0_compat; [apply Rmult_lt_0_compat|]; lra. }
    lra. }
  assert (Htail : forall a, friction_limit_angle < a ->
            peak * falloff_level <= tail a <= peak).
  { intros a Ha. unfold tail.
    assert (He := exp_neg_lt_1 _ (Harg a Ha)).
    assert (Hp := exp_pos (- falloff_speed * (a - friction_limit_angle)
                           / friction_limit_angle)).
    set (e := exp (- falloff_speed * (a - friction_limit_angle)
                   / friction_limit_angle)) in *.
    assert (Hx : falloff_level <= falloff_level + (1 - falloff_level) * e
                 <= 1) by nra.
    split.
    - apply Rmult_le_compat_l; lra.
    - rewrite <- (Rmult_1_r peak) at 2. apply Rmult_le_compat_l; lra. }
  assert (Hlin : forall a, a <= friction_limit_angle ->
            dy_ref * radians a <= peak).
  { intros a Ha. unfold peak. apply Rmult_le_compat_l; [lra|].
    destruct Ha as [Ha | ->]; [apply Rlt_le, radians_increasing, Ha | lra]. }
  unfold ac_tire_model. cbn [map].
  destruct (Rle_dec a2 friction_limit_angle) as [H2 | H2].
  - rewrite !ac_tire_sample_linear by lra.
    eexists; eexists. split; [reflexivity|].
    repeat split; try (intros; lra); try (apply Hlin; lra).
    intros _. apply Rmult_le_compat_l; [lra|].
    apply Rlt_le, radians_increasing. exact H12.
  - rewrite (ac_tire_sample_falloff _ _ _ _ a2) by lra.
    fold peak. fold (tail a2).
    destruct (Rle_dec a1 friction_limit_angle) as [H1 | H1].
    + rewrite ac_tire_sample_linear by lra.
      eexists; eexists. split; [reflexivity|].
      repeat split; try (intros; lra).
      * apply Hlin. lra.
      * apply Htail. lra.
    + rewrite (ac_tire_sample_falloff _ _ _ _ a1) by lra.
      fold peak. fold (tail a1).
      eexists; eexists. split; [reflexivity|].
      repeat split; try (intros; lra); apply Htail; lra.
Qed.

Lemma ac_tire_model_shape_example :
  exists v1 v2,
    ac_tire_model 1.26 8.5 0.6 8 [9; 12] = [Fin v1; Fin v2]
    /\ 1.26 * radians 8.5 * 0.6 <= v2 <= 1.26 * radians 8.5.
Proof.
  destruct (ac_tire_model_shape 1.26 8.5 0.6 8 9 12
              ltac:(lra) ltac:(lra) ltac:(lra) ltac:(lra) ltac:(lra))
    as (v1 & v2 & Hm & _ & _ & Hup & Hlow).
  exists v1, v2. split; [exact Hm|].
  split; [apply Hlow; lra | exact Hup].
Defined.

(** X13 (the driver's copy).  The comparison curve that
    [plot_load_sensitivity_analysis] computes in place is the brush
    model with limit angle 8.5, falloff level 0.6 and falloff speed 8,
    divided by [radians 8.5]: its value at 8.5 degrees is [dy_ref]
    itself. *)
Theorem current_ac_forces_is_scaled_brush_model
  (dy_ref : R) (angles : list R) :
  ac_tire_model dy_ref 8.5 0.6 8 angles
  = map (fun v => Fin (v * radians 8.5)) (current_ac_forces dy_ref angles)
  /\ current_ac_sample dy_ref 8.5 = dy_ref.
Proof.
  assert (Hr : radians 8.5 <> 0).
  { assert (0 < radians 8.5) by (apply radians_pos; lra). lra. }
  split.
  - unfold ac_tire_model, current_ac_forces. rewrite map_map.
    apply map_ext. intros a. unfold current_ac_sample.
    destruct (Rle_dec a 8.5) as [Hle | Hgt].
    + rewrite ac_tire_sample_linear by exact Hle. f_equal. field. exact Hr.
    + rewrite ac_tire_sample_falloff by lra. f_equal. ring.
  - unfold current_ac_sample.
    destruct (Rle_dec 8.5 8.5); [field; exact Hr | lra].
Qed.

(** ** Normalisation, continued *)

(** X14 (normalised series).  On a series with a strictly positive
    maximum every normalised entry is at most 1, and normalising the
    normalised series again leaves it unchanged. *)
Theorem normalize_forces_idempotent (forces : list R) (peak : R) :
  np_max forces = Ok peak -> 0 < peak ->
  let normalized := map (fun f => f / peak) forces in
  normalize_forces forces = Ok (map Fin normalized)
  /\ (forall f, In f normalized -> f <= 1)
  /\ normalize_forces normalized = Ok (map Fin normalized).
Proof.
  intros Hp Hpos normalized.
  assert (Hone : np_max normalized = Ok 1).
  { subst normalized. destruct forces as [|x rest]; [discriminate|].
    simpl in *. injection Hp as Hp. f_equal.
    rewrite fold_left_Rmax_div by exact Hpos. rewrite Hp. field. lra. }
  split; [|split].
  - rewrite (normalize_forces_nonzero_peak forces peak Hp) by lra.
    subst normalized. rewrite map_map. reflexivity.
  - intros f Hin. apply In_nth_error in Hin. destruct Hin as [i Hi].
    apply (np_max_upper_bound normalized 1 i f Hone Hi).
  - rewrite (normalize_forces_nonzero_peak normalized 1 Hone) by lra.
    f_equal. rewrite <- (map_id normalized) at 2. rewrite !map_map.
    apply map_ext. intros f. f_equal. field.
Qed.

Lemma normalize_forces_idempotent_example :
  normalize_forces (map (fun f => f / 4) [1; 2; 4])
  = Ok (map Fin (map (fun f => f / 4) [1; 2; 4])).
Proof.
  assert (Hp : np_max [1; 2; 4] = Ok 4).
  { simpl. f_equal. unfold Rmax.
    destruct (Rle_dec 1 2); [|lra].
    destruct (Rle_dec 2 4); [reflexivity | lra]. }
  apply (proj2 (proj2 (normalize_forces_idempotent [1; 2; 4] 4 Hp
                         ltac:(lra)))).
Defined.

(** On finite values [np.maximum] is [Rmax]. *)
Lemma np_maximum_finite (a b : R) :
  np_maximum (Fin a) (Fin b) = Fin (Rmax a b).
Proof.
  unfold np_maximum, Rmax. cbn [np_ltb].
  destruct (Rlt_dec a b), (Rle_dec a b); try reflexivity; try lra.
  f_equal. lra.
Qed.

Lemma np_maximum_nan_l (y : np_float) : np_maximum NaN y = NaN.
Proof. reflexivity. Qed.

Lemma np_maximum_nan_r (x : np_float) : np_maximum x NaN = NaN.
Proof. destruct x; reflexivity. Qed.

Lemma fold_left_np_maximum_nan (rest : list np_float) :
  fold_left np_maximum rest NaN = NaN.
Proof. induction rest as [|y rest IH]; simpl; [reflexivity | exact IH]. Qed.

(** A NaN entry makes the maximum NaN. *)
Lemma np_max_float_nan (forces : list np_float) :
  In NaN forces -> np_max_float forces = Ok NaN.
Proof.
  destruct forces as [|x rest]; [contradiction|].
  simpl. intros Hin. f_equal. revert x Hin.
  induction rest as [|y rest IH]; intros x Hin.
  - destruct Hin as [-> | []]. reflexivity.
  - simpl. destruct Hin as [-> | [-> | Hin]].
    + apply fold_left_np_maximum_nan.
    + rewrite np_maximum_nan_r. apply fold_left_np_maximum_nan.
    + apply IH. right. exact Hin.
Qed.

Lemma normalize_chatter_forces_nan (forces : list np_float) :
  In NaN forces ->
  normalize_chatter_forces forces = Ok (map (fun _ => NaN) forces).
Proof.
  intros Hin. unfold normalize_chatter_forces.
  rewrite (np_max_float_nan forces Hin). cbn [bind]. f_equal.
  apply map_ext. intros f. destruct f; reflexivity.
Qed.

(** On a finite series the normalisation of the chatter files is the
    normalisation of [generate_lut_file]. *)
Lemma normalize_chatter_forces_finite (forces : list R) :
  normalize_chatter_forces (map Fin forces) = normalize_forces forces.
Proof.
  unfold normalize_chatter_forces, normalize_forces.
  destruct forces as [|x rest]; [reflexivity|].
  cbn [map np_max_float np_max bind].
  assert (Hfold : forall rest x,
            fold_left np_maximum (map Fin rest) (Fin x)
            = Fin (fold_left Rmax rest x)).
  { clear. induction rest as [|y rest IH]; intros x; cbn [map fold_left];
      [reflexivity|].
    rewrite np_maximum_finite. apply IH. }
  rewrite Hfold. cbn [np_div_float]. f_equal. f_equal.
  rewrite map_map. reflexivity.
Qed.

(** X15 (one NaN spoils the table).  With [chatter_start = 20.0] and a
    series that holds the sample 20.0, once the builder has returned,
    the chatter curve holds a NaN, its maximum is NaN, and the
    normalisation of [generate_chatter_lut_files] turns every entry of
    the curve into NaN. *)
Theorem chatter_start_20_spoils_table
  (chatter_intensity chatter_frequency : R)
  (angles base : list R) (dy_ref fz0 ls_exp vertical_load : R) :
  In 20 angles ->
  create_realistic_tire_curve angles dy_ref fz0 ls_exp vertical_load
  = Ok base ->
  exists out,
    create_chatter_tire_curve 20 chatter_intensity chatter_frequency
      angles dy_ref fz0 ls_exp vertical_load = Ok out
    /\ List.length out = List.length angles
    /\ normalize_chatter_forces out = Ok (map (fun _ => NaN) out).
Proof.
  intros Hin Hb.
  destruct (create_chatter_tire_curve_samples 20 chatter_intensity
              chatter_frequency angles base dy_ref fz0 ls_exp
              vertical_load Hb) as (Hlen & Hout).
  eexists. split; [exact Hout|]. split.
  - rewrite length_map, length_combine, Hlen. apply Nat.min_id.
  - apply normalize_chatter_forces_nan.
    apply In_nth_error in Hin. destruct Hin as [i Hi].
    destruct (nth_error_combine_inv angles base i 20 Hlen Hi) as (b & Hbi).
    apply (nth_error_In _ i).
    rewrite nth_error_map, (nth_error_combine angles base i 20 b Hi Hbi).
    cbn [option_map fst snd]. f_equal.
    apply chatter_sample_nan. reflexivity.
Qed.

Lemma chatter_start_20_spoils_table_example :
  exists out,
    create_chatter_tire_curve 20 0.15 2.0 [0; 20] 1.26 2494 0.8119 2494
    = Ok out
    /\ normalize_chatter_forces out = Ok (map (fun _ => NaN) out).
Proof.
  assert (Hb :
    create_realistic_tire_curve [0; 20] 1.26 2494 0.8119 2494
    = Ok (map (curve_value (1.26 * Rpower (2494 / 2494) 0.8119)) [0; 20])).
  { rewrite create_realistic_tire_curve_valid by valid_parameters.
    apply curve_loop_unbound_ok. simpl. pick_branch; tauto. }
  destruct (chatter_start_20_spoils_table 0.15 2.0 [0; 20] _
              1.26 2494 0.8119 2494 ltac:(simpl; auto) Hb)
    as (out & Hout & _ & Hn).
  exists out. split; assumption.
Defined.

(** ** File names and lines *)

Section FileNames.

Local Open Scope string_scope.

Ltac every_ascii c :=
  destruct c as [[] [] [] [] [] [] [] []];
  try reflexivity; try discriminate.

Lemma safe_char_after (c : ascii) :
  safe_char
    (if Ascii.eqb (if Ascii.eqb (ascii_lower c) " " then "_"%char
                   else ascii_lower c) "-"
     then "_"%char
     else if Ascii.eqb (ascii_lower c) " " then "_"%char
          else ascii_lower c) = true.
Proof. every_ascii c. Qed.

Lemma safe_char_fixed (c : ascii) :
  safe_char c = true ->
  (if Ascii.eqb (if Ascii.eqb (ascii_lower c) " " then "_"%char
                 else ascii_lower c) "-"
   then "_"%char
   else if Ascii.eqb (ascii_lower c) " " then "_"%char
        else ascii_lower c) = c.
Proof. every_ascii c. Qed.

Lemma safe_name_cons (c : ascii) (rest : string) :
  safe_name (String c rest)
  = String
      (if Ascii.eqb (if Ascii.eqb (ascii_lower c) " " then "_"%char
                     else ascii_lower c) "-"
       then "_"%char
       else if Ascii.eqb (ascii_lower c) " " then "_"%char
            else ascii_lower c)
      (safe_name rest).
Proof. reflexivity. Qed.

Lemma safe_name_safe (name : string) :
  string_forall safe_char (safe_name name) = true.
Proof.
  induction name as [|c rest IH]; [reflexivity|].
  rewrite safe_name_cons. cbn [string_forall].
  rewrite safe_char_after, IH. reflexivity.
Qed.

Lemma safe_name_fixed (name : string) :
  string_forall safe_char name = true -> safe_name name = name.
Proof.
  induction name as [|c rest IH]; [reflexivity|].
  cbn [string_forall]. intros H. apply andb_true_iff in H as [Hc Hr].
  rewrite safe_name_cons, (safe_char_fixed c Hc), (IH Hr). reflexivity.
Qed.

Lemma safe_name_length (name : string) :
  String.length (safe_name name) = String.length name.
Proof.
  induction name as [|c rest IH]; [reflexivity|].
  rewrite safe_name_cons. cbn [String.length]. rewrite IH. reflexivity.
Qed.

(** X16 (file names).  The name a chatter curve is filed under has the
    length of the curve's name and holds no space, no hyphen and no
    upper-case letter; a name that is already of this kind is kept, so
    two curves whose names differ only in case, spaces, hyphens or
    underscores are written to the same file. *)
Theorem safe_name_normal_form (name : string) :
  string_forall ascii_char name = true ->
  String.length (safe_name name) = String.length name
  /\ string_forall safe_char (safe_name name) = true
  /\ safe_name (safe_name name) = safe_name name
  /\ chatter_lut_filename (safe_name name) = chatter_lut_filename name.
Proof.
  intros _.
  assert (Hidem : safe_name (safe_name name) = safe_name name)
    by apply safe_name_fixed, safe_name_safe.
  split; [apply safe_name_length|].
  split; [apply safe_name_safe|].
  split; [exact Hidem|].
  unfold chatter_lut_filename. rewrite Hidem. reflexivity.
Qed.

Lemma safe_name_normal_form_example :
  safe_name "High-Freq Buzz" = "high_freq_buzz"
  /\ chatter_lut_filename "high_freq_buzz"
     = chatter_lut_filename "High-Freq Buzz".
Proof.
  split; [reflexivity|].
  change "high_freq_buzz" with (safe_name "High-Freq Buzz") at 1.
  apply (safe_name_normal_form "High-Freq Buzz" eq_refl).
Defined.

(** X17 (zip).  The table has one data line per pair of [zip]: samples
    beyond the shorter of the two arrays are left out of the file, and
    nothing is raised. *)
Theorem lut_text_truncates
  (header : list string) (angles forces : list lut_number) :
  let n := Nat.min (List.length angles) (List.length forces) in
  lut_text header angles forces
  = lut_text header (firstn n angles) (firstn n forces).
Proof.
  intros n. unfold lut_text.
  rewrite <- combine_firstn.
  rewrite firstn_all2; [reflexivity|].
  rewrite length_combine. apply Nat.le_refl.
Qed.

End FileNames.

(** ** The drivers *)

Lemma linspace_length (start stop : R) (num : nat) :
  List.length (linspace start stop num) = num.
Proof. unfold linspace. rewrite length_map, length_seq. reflexivity. Qed.

Lemma linspace_nth (start stop : R) (num i : nat) :
  (i < num)%nat ->
  nth_error (linspace start stop num) i
  = Some (start + INR i * ((stop - start) / INR (num - 1))).
Proof.
  intros Hi. unfold linspace.
  rewrite nth_error_map.
  rewrite (nth_error_nth' (seq 0 num) 0%nat) by (rewrite length_seq; exact Hi).
  rewrite seq_nth by exact Hi. reflexivity.
Qed.

(** A series that begins in the linear region never reads the unbound
    [cornering_stiffness]. *)
Lemma linspace_from_zero_is_read (stop : R) (num : nat) :
  ~ reads_unbound (linspace 0 stop num).
Proof.
  destruct num as [|num]; [simpl; tauto|].
  unfold linspace. cbn [seq map reads_unbound].
  destruct (Rle_dec (0 + INR 0 * ((stop - 0) / INR (S num - 1))) 2.0)
    as [_ | Hn]; [tauto|].
  exfalso. apply Hn. cbn [INR]. lra.
Qed.

Lemma INR_150 : INR 150 = 150.
Proof. rewrite INR_IZR_INZ. reflexivity. Qed.

Lemma INR_200 : INR 200 = 200.
Proof. rewrite INR_IZR_INZ. reflexivity. Qed.

Lemma INR_55 : INR 55 = 55.
Proof. rewrite INR_IZR_INZ. reflexivity. Qed.

Lemma linspace_15_holds_peak : In 5.5 (linspace 0 15 151).
Proof.
  apply (nth_error_In _ 55).
  rewrite linspace_nth by lia. f_equal.
  change (151 - 1)%nat with 150%nat. rewrite INR_150, INR_55. lra.
Qed.

Lemma linspace_20_holds_peak : In 5.5 (linspace 0 20 201).
Proof.
  apply (nth_error_In _ 55).
  rewrite linspace_nth by lia. f_equal.
  change (201 - 1)%nat with 200%nat. rewrite INR_200, INR_55. lra.
Qed.

Lemma reference_peak_grip : 1.26 * Rpower (2494 / 2494) 0.8119 = 1.26.
Proof.
  replace (2494 / 2494) with 1 by lra. rewrite Rpower_1_l. lra.
Qed.

(** X18 (the table of the driver).  [plot_load_sensitivity_analysis]
    hands [generate_lut_file] a curve that normalises without failure:
    the 151 values written are the curve of peak grip 1 at 0.0, 0.1,
    ..., 15.0 degrees, so the entry for 5.5 degrees is the maximum
    1. *)
Theorem custom_lut_values_are_unit_curve :
  exists out,
    custom_lut_values = Ok out
    /\ List.length out = 151%nat
    /\ nth_error out 55 = Some (Fin 1)
    /\ forall i : nat, (i < 151)%nat ->
         nth_error out i = Some (Fin (curve_value 1 (INR i / 10))).
Proof.
  assert (Hb :
    create_realistic_tire_curve (linspace 0 15 151) 1.26 2494 0.8119 2494
    = Ok (map (curve_value (1.26 * Rpower (2494 / 2494) 0.8119))
              (linspace 0 15 151))).
  { rewrite create_realistic_tire_curve_valid by valid_parameters.
    apply curve_loop_unbound_ok. apply linspace_from_zero_is_read. }
  assert (Hn := normalize_built_curve (linspace 0 15 151) _
                  1.26 2494 0.8119 2494 ltac:(lra) ltac:(lra) ltac:(lra)
                  linspace_15_holds_peak Hb).
  assert (Hnth : forall i : nat, (i < 151)%nat ->
    nth_error (map (fun a => Fin (curve_value 1 a)) (linspace 0 15 151)) i
    = Some (Fin (curve_value 1 (INR i / 10)))).
  { intros i Hi. rewrite nth_error_map, linspace_nth by exact Hi.
    cbn [option_map]. do 3 f_equal.
    change (151 - 1)%nat with 150%nat. rewrite INR_150. lra. }
  eexists. split; [|split; [|split]].
  - unfold custom_lut_values. cbv zeta. rewrite Hb. cbn [bind]. exact Hn.
  - rewrite length_map. apply linspace_length.
  - rewrite Hnth by lia. do 2 f_equal.
    rewrite INR_55. replace (55 / 10) with 5.5 by lra.
    apply curve_value_range; [lra | reflexivity].
  - exact Hnth.
Qed.

(** One chatter curve of the driver: finite, of 201 samples, and with
    the untouched peak of the base curve among them. *)
Lemma driver_chatter_curve (chatter_start chatter_intensity
  chatter_frequency : R) :
  chatter_start <> 20 -> 5.5 < chatter_start ->
  exists forces,
    create_chatter_tire_curve chatter_start chatter_intensity
      chatter_frequency (linspace 0 20 201) 1.26 2494 0.8119 2494
    = Ok (map Fin forces)
    /\ List.length forces = 201%nat
    /\ In 1.26 forces.
Proof.
  intros Hs Hlate.
  set (pg := 1.26 * Rpower (2494 / 2494) 0.8119).
  assert (Hb :
    create_realistic_tire_curve (linspace 0 20 201) 1.26 2494 0.8119 2494
    = Ok (map (curve_value pg) (linspace 0 20 201))).
  { rewrite create_realistic_tire_curve_valid by valid_parameters.
    apply curve_loop_unbound_ok. apply linspace_from_zero_is_read. }
  destruct (create_chatter_tire_curve_samples chatter_start
              chatter_intensity chatter_frequency _ _ _ _ _ _ Hb)
    as (Hlen & Hout).
  rewrite Hout.
  set (pairs := combine (linspace 0 20 201)
                        (map (curve_value pg) (linspace 0 20 201))).
  assert (Hfin : forall ps : list (R * R),
    exists forces,
      map (fun p => chatter_sample chatter_start chatter_intensity
                      chatter_frequency (fst p) (snd p)) ps
      = map Fin forces
      /\ List.length forces = List.length ps
      /\ forall i a b, nth_error ps i = Some (a, b) -> a < chatter_start ->
           nth_error forces i = Some b).
  { induction ps as [|[a b] ps (forces & IH & IHlen & IHnth)].
    - exists []. repeat split. intros [|i]; discriminate.
    - destruct (chatter_sample_finite chatter_start chatter_intensity
                  chatter_frequency a b ltac:(tauto)) as (v & Hv).
      exists (v :: forces). cbn [map fst snd List.length].
      rewrite Hv, IH, IHlen. repeat split.
      intros [|i] a' b' Hn Hlt; cbn [nth_error] in *.
      + injection Hn as -> ->.
        rewrite chatter_sample_below in Hv by exact Hlt. congruence.
      + eapply IHnth; eassumption. }
  destruct (Hfin pairs) as (forces & Hmap & Hflen & Hfnth).
  exists forces. split; [f_equal; exact Hmap|]. split.
  - rewrite Hflen. unfold pairs.
    rewrite length_combine, length_map, linspace_length. reflexivity.
  - destruct (In_nth_error _ _ linspace_20_holds_peak) as (i & Hi).
    apply (nth_error_In _ i).
    apply (Hfnth i 5.5 1.26); [|lra].
    unfold pairs. apply nth_error_combine; [exact Hi|].
    rewrite nth_error_map, Hi. cbn [option_map]. f_equal.
    unfold pg. rewrite reference_peak_grip.
    apply curve_value_range; [lra | reflexivity].
Qed.

(** The normalisation of a finite curve that holds a positive entry. *)
Lemma normalize_chatter_forces_positive (forces : list R) (f : R) :
  In f forces -> 0 < f ->
  exists normalized,
    normalize_chatter_forces (map Fin forces) = Ok (map Fin normalized)
    /\ List.length normalized = List.length forces
    /\ forall v, In v normalized -> v <= 1.
Proof.
  intros Hin Hpos.
  rewrite normalize_chatter_forces_finite.
  destruct (np_max forces) as [peak | e] eqn:Hp.
  2: { destruct forces; [contradiction | discriminate]. }
  assert (Hpk : 0 < peak).
  { apply In_nth_error in Hin. destruct Hin as [i Hi].
    assert (H := np_max_upper_bound forces peak i f Hp Hi). lra. }
  exists (map (fun v => v / peak) forces).
  rewrite (normalize_forces_nonzero_peak forces peak Hp) by lra.
  rewrite map_map. split; [reflexivity|]. split; [apply length_map|].
  intros v Hv. apply in_map_iff in Hv. destruct Hv as (x & <- & Hx).
  apply In_nth_error in Hx. destruct Hx as [i Hi].
  assert (H := np_max_upper_bound forces peak i x Hp Hi).
  apply (Rmult_le_reg_r peak); [exact Hpk|].
  replace (x / peak * peak) with x by (field; lra). lra.
Qed.

Section DriverFacts.

Local Open Scope string_scope.

(** X19 (the chatter driver).  [generate_experimental_curves] computes its
    four curves without failure, each of 201 finite forces, and
    [generate_chatter_lut_files] normalises each of them without
    failure, to 201 finite values that are at most 1, and writes them
    to four different files. *)
Theorem experimental_chatter_curves_are_written :
  exists curves files,
    experimental_chatter_curves = Ok curves
    /\ map fst curves
       = [ "Subtle Chatter"; "Moderate Chatter"; "Aggressive Chatter";
           "High-Freq Buzz" ]
    /\ Forall (fun curve =>
                 exists forces,
                   snd curve = map Fin forces
                   /\ List.length forces = 201%nat) curves
    /\ chatter_lut_files curves = Ok files
    /\ map fst files
       = map (fun name =>
                "/Users/ferchak/src/ssc-mod/research/dy_curve_chatter_"
                ++ name ++ ".lut")
             [ "subtle_chatter"; "moderate_chatter"; "aggressive_chatter";
               "high_freq_buzz" ]
    /\ NoDup (map fst files)
    /\ Forall (fun file =>
                 exists normalized,
                   snd file = map Fin normalized
                   /\ List.length normalized = 201%nat
                   /\ forall v, In v normalized -> v <= 1) files.
Proof.
  destruct (driver_chatter_curve 12.0 0.08 1.5 ltac:(lra) ltac:(lra))
    as (f1 & E1 & L1 & P1).
  destruct (driver_chatter_curve 10.0 0.15 2.0 ltac:(lra) ltac:(lra))
    as (f2 & E2 & L2 & P2).
  destruct (driver_chatter_curve 9.0 0.25 3.0 ltac:(lra) ltac:(lra))
    as (f3 & E3 & L3 & P3).
  destruct (driver_chatter_curve 11.0 0.12 4.0 ltac:(lra) ltac:(lra))
    as (f4 & E4 & L4 & P4).
  destruct (normalize_chatter_forces_positive f1 1.26 P1 ltac:(lra))
    as (n1 & N1 & M1 & B1).
  destruct (normalize_chatter_forces_positive f2 1.26 P2 ltac:(lra))
    as (n2 & N2 & M2 & B2).
  destruct (normalize_chatter_forces_positive f3 1.26 P3 ltac:(lra))
    as (n3 & N3 & M3 & B3).
  destruct (normalize_chatter_forces_positive f4 1.26 P4 ltac:(lra))
    as (n4 & N4 & M4 & B4).
  exists [ ("Subtle Chatter", map Fin f1); ("Moderate Chatter", map Fin f2);
           ("Aggressive Chatter", map Fin f3); ("High-Freq Buzz", map Fin f4) ].
  exists [ (chatter_lut_filename "Subtle Chatter", map Fin n1);
           (chatter_lut_filename "Moderate Chatter", map Fin n2);
           (chatter_lut_filename "Aggressive Chatter", map Fin n3);
           (chatter_lut_filename "High-Freq Buzz", map Fin n4) ].
  split; [|split; [|split; [|split; [|split; [|split]]]]].
  - unfold experimental_chatter_curves, chatter_configs. cbv zeta.
    cbn [chatter_curves_loop config_start config_intensity
         config_frequency config_name].
    rewrite E1. cbn [bind]. rewrite E2. cbn [bind].
    rewrite E3. cbn [bind]. rewrite E4. cbn [bind].
    reflexivity.
  - reflexivity.
  - repeat constructor; cbn [snd]; eauto.
  - cbn [chatter_lut_files]. rewrite N1, N2, N3, N4. reflexivity.
  - reflexivity.
  - cbn [map fst].
    repeat constructor; cbn [In]; intros H;
      repeat (destruct H as [H | H]; [discriminate H|]); exact H.
  - repeat constructor; cbn [snd];
      eexists; (split; [reflexivity | split; [|eassumption]]); congruence.
Qed.

End DriverFacts.
